(** * make_profiler/parser.py: tokenizer, parser and influence graph

    A shallow embedding of [make_profiler/parser.py] and the properties of
    its three stages:
    - [tokenizer]: classification of raw lines and continuation splicing,
    - [parse]: extraction of target records with one regular expression,
    - [get_dependencies_influences]: the dependency and influence maps,
    and of [check_include_instruction], which expands the include lines of
    a makefile before the three stages run.

    Conventions of the embedding.
    - A Python [str] is a [string] of 8-bit code points.
    - A [dict] is a [gmap], a [set] a [gset]; a [defaultdict(set)] is a
      [gmap string (gset string)] read through [dd_get] and created
      through [dd_touch].
    - An iterator over the input lines is the list of the lines that are
      left; a generator is the finite sequence of what it yields together
      with the way it ends ([generator]).
    - A raised exception is a value of [exn]; fallible functions return a
      sum with the exception on the left.
    - The recursive closure of the graph builder has an argument [limit]:
      the number of nested calls of the closure that the interpreter still
      allows when the second loop starts, that is, Python's recursion
      limit less the frames that are on the stack by then. Running out of
      it is [None], Python's [RecursionError].
    - The files that can be opened and read are a [gmap] from paths to
      texts; failures of the file system other than a path that is not
      such a file are outside the model. *)

From Stdlib Require Import String Ascii List NArith.
From stdpp Require Import gmap strings list fin_maps sorting.
From Equations Require Import Equations.
From Equations.Prop Require Import Logic.
Import ListNotations.
Open Scope string_scope.
Set Warnings "-clear-no-such-hyp".

(** ** Python string primitives *)

(** [str.isspace] on one character, for code points below 256. *)
Definition isspace (c : ascii) : bool :=
  let n := N_of_ascii c in
  ((9 <=? n) && (n <=? 13) || (28 <=? n) && (n <=? 32)
   || (n =? 133) || (n =? 160))%N.

(** [c in chars] for a one-character [c]. *)
Fixpoint in_chars (chars : string) (c : ascii) : bool :=
  match chars with
  | EmptyString => false
  | String d chars' => Ascii.eqb c d || in_chars chars' c
  end.

Fixpoint lstrip_by (p : ascii → bool) (s : string) : string :=
  match s with
  | EmptyString => EmptyString
  | String c s' => if p c then lstrip_by p s' else s
  end.

Fixpoint rstrip_by (p : ascii → bool) (s : string) : string :=
  match s with
  | EmptyString => EmptyString
  | String c s' =>
      match rstrip_by p s' with
      | EmptyString => if p c then EmptyString else String c EmptyString
      | r => String c r
      end
  end.

(** [s.strip()] *)
Definition strip (s : string) : string := rstrip_by isspace (lstrip_by isspace s).

(** [s.strip(chars)] *)
Definition strip_chars (chars s : string) : string :=
  rstrip_by (in_chars chars) (lstrip_by (in_chars chars) s).

(** [s.rstrip(chars)] *)
Definition rstrip_chars (chars s : string) : string := rstrip_by (in_chars chars) s.

(** [s[0]]; [None] stands for the [IndexError] of an empty string. *)
Definition first_char (s : string) : option ascii :=
  match s with
  | EmptyString => None
  | String c _ => Some c
  end.

(** [s[-1]]; [None] stands for the [IndexError] of an empty string. *)
Fixpoint last_char (s : string) : option ascii :=
  match s with
  | EmptyString => None
  | String c EmptyString => Some c
  | String _ s' => last_char s'
  end.

(** [s[:n]] *)
Definition slice_to (n : nat) (s : string) : string := substring 0 n s.

(** [c in s] for a one-character [c]. *)
Definition contains (c : ascii) (s : string) : bool := in_chars s c.

(** [sep.join(l)] *)
Definition join (sep : string) (l : list string) : string := String.concat sep l.

(** [s.split()]: the maximal runs of characters that are not white space. *)
Fixpoint split_go (word : option string) (s : string) : list string :=
  match s with
  | EmptyString => option_list word
  | String c s' =>
      if isspace c then option_list word ++ split_go None s'
      else split_go (Some (default EmptyString word ++ String c EmptyString)) s'
  end.

Definition str_split (s : string) : list string := split_go None s.

(** [sorted(l)] on a list of [str]: the order is the one of the code points,
    [String.le]. The order is total and antisymmetric, so the sorted list
    does not depend on the algorithm. *)
Definition sorted (l : list string) : list string := merge_sort String.le l.

(** ** The fragment of [re] that the parser uses

    Matching is by backtracking, as in [re]: a greedy quantifier tries the
    longest repetition first, a lazy one the shortest, and an alternative is
    retried only when the rest of the pattern failed. Repetition is over
    character classes, which is all that the pattern of [parse_target]
    needs; a group that takes no part in the match stays [None]. *)

Inductive regex : Type :=
| re_class (p : ascii → bool)        (* one character of a class *)
| re_plus (p : ascii → bool)         (* [c+], greedy *)
| re_plus_lazy (p : ascii → bool)    (* [c+?], lazy *)
| re_opt (r : regex)                 (* [r?], greedy *)
| re_group (i : nat) (r : regex)     (* capturing group number [i] *)
| re_seq (r1 r2 : regex).

(** The captured groups, by number. *)
Definition groups := list (nat * string).

Definition group (g : groups) (i : nat) : option string :=
  snd <$> List.find (λ e, Nat.eqb (fst e) i) g.

(** The part of [s] that was consumed to reach its suffix [s']. *)
Definition consumed (s s' : string) : string :=
  substring 0 (String.length s - String.length s') s.

Section backtracking.
Context {R : Type}.

(** [c+]: after the first character, as many more as the continuation
    [k] accepts, the longest first. *)
Fixpoint star_greedy (p : ascii → bool) (k : string → option R)
    (s : string) : option R :=
  match s with
  | String c s' =>
      if p c then
        match star_greedy p k s' with
        | Some r => Some r
        | None => k s
        end
      else k s
  | EmptyString => k s
  end.

Definition plus_greedy (p : ascii → bool) (k : string → option R)
    (s : string) : option R :=
  match s with
  | String c s' => if p c then star_greedy p k s' else None
  | EmptyString => None
  end.

(** [c+?]: the shortest repetition that the continuation accepts. *)
Fixpoint plus_lazy (p : ascii → bool) (k : string → option R)
    (s : string) : option R :=
  match s with
  | String c s' =>
      if p c then
        match k s' with
        | Some r => Some r
        | None => plus_lazy p k s'
        end
      else None
  | EmptyString => None
  end.
End backtracking.

Fixpoint rmatch {R : Type} (r : regex) (s : string) (g : groups)
    (k : string → groups → option R) : option R :=
  match r with
  | re_class p =>
      match s with
      | String c s' => if p c then k s' g else None
      | EmptyString => None
      end
  | re_plus p => plus_greedy p (λ s', k s' g) s
  | re_plus_lazy p => plus_lazy p (λ s', k s' g) s
  | re_opt r' =>
      match rmatch r' s g k with
      | Some x => Some x
      | None => k s g
      end
  | re_group i r' => rmatch r' s g (λ s' g', k s' ((i, consumed s s') :: g'))
  | re_seq r1 r2 => rmatch r1 s g (λ s' g', rmatch r2 s' g' k)
  end.

(** [re.match(r, s)]: anchored at the start, not at the end. *)
Definition re_match (r : regex) (s : string) : option groups :=
  rmatch r s [] (λ _ g, Some g).

(** Character classes of the pattern. *)
Definition is_char (c : ascii) : ascii → bool := Ascii.eqb c.
Definition not_in (chars : string) (c : ascii) : bool := negb (in_chars chars c).
(** [.] without [re.DOTALL]: anything but a newline. *)
Definition dot (c : ascii) : bool := negb (Ascii.eqb c "010").

(** The pattern of [parse_target], read under [re.X] (white space of the
    pattern is dropped; every [#] of it stands in a character class):

    [(.+?):\s?([^|#]+)?\s?[|]?\s?([^##]+)?\s?\s?([#][#].+)?] *)
Definition target_re : regex :=
  let name := re_group 1 (re_plus_lazy dot) in
  let deps := re_group 2 (re_plus (not_in "|#")) in
  let order_deps := re_group 3 (re_plus (not_in "##")) in
  let docstring :=
    re_group 4 (re_seq (re_class (is_char "#"))
               (re_seq (re_class (is_char "#")) (re_plus dot))) in
  foldr re_seq (re_opt docstring)
    [ name; re_class (is_char ":"); re_opt (re_class isspace);
      re_opt deps; re_opt (re_class isspace);
      re_opt (re_class (is_char "|")); re_opt (re_class isspace);
      re_opt order_deps; re_opt (re_class isspace);
      re_opt (re_class isspace) ].

(** ** Exceptions and generators *)

Inductive exn : Type :=
| StopIteration
| IndexError (msg : string)
| AttributeError (msg : string)
| RuntimeError (msg : string).

(** A generator over a finite input: what it yields, in order, and how it
    ends, by returning ([Stop]) or by raising ([Raise]). Its consumer sees
    one element at a time, so an exception that ends the generator is seen
    only after everything that was yielded before it. *)
Inductive generator (A : Type) : Type :=
| Yield (a : A) (next : generator A)
| Stop
| Raise (e : exn).
Arguments Yield {A} a next.
Arguments Stop {A}.
Arguments Raise {A} e.

(** A [StopIteration] that escapes from the body of a generator reaches
    the consumer as a [RuntimeError] (PEP 479, Python 3.7 and later). *)
Definition escape (e : exn) : exn :=
  match e with
  | StopIteration => RuntimeError "generator raised StopIteration"
  | _ => e
  end.

(** What a generator yields before it ends. *)
Fixpoint yielded {A : Type} (g : generator A) : list A :=
  match g with
  | Yield a g' => a :: yielded g'
  | _ => []
  end.

(** The exception a generator ends with, if it does not return. *)
Fixpoint raised {A : Type} (g : generator A) : option exn :=
  match g with
  | Yield _ g' => raised g'
  | Stop => None
  | Raise e => Some e
  end.

(** The number of elements a generator can still yield. *)
Fixpoint remaining {A : Type} (g : generator A) : nat :=
  match g with
  | Yield _ g' => S (remaining g')
  | _ => 0
  end.

(** ** The tokenizer *)

Module Tokens.
Inductive t : Type := target | command | expression.

#[global] Instance eq_dec : EqDecision t.
Proof. solve_decision. Defined.
End Tokens.

(** A token: its kind and its text. *)
Abbreviation token := (Tokens.t * string)%type.

Definition TAB : ascii := "009".
Definition BACKSLASH : ascii := "\".

(** The loop of [glue_multiline]. [it] is the iterator over the lines that
    the tokenizer shares with it: the lines that are left come back with
    the result. [next(it)] on an exhausted iterator raises [StopIteration];
    [strip_line[-1]] on an empty string raises [IndexError]. *)
Fixpoint glue_loop (lines : list string) (strip_line : string)
    (it : list string) : exn + (string * list string) :=
  match last_char strip_line with
  | None => inl (IndexError "string index out of range")
  | Some c =>
      let piece := strip (rstrip_chars (String BACKSLASH "") strip_line) in
      if Ascii.eqb c BACKSLASH then
        match it with
        | [] => inl StopIteration
        | line :: it' => glue_loop (lines ++ [piece])%list (strip line) it'
        end
      else inr (join " " (lines ++ [piece])%list, it)
  end.

Definition glue_multiline (line : string) (it : list string)
    : exn + (string * list string) :=
  glue_loop [] (strip line) it.

Lemma glue_loop_consumes lines strip_line it v it' :
  glue_loop lines strip_line it = inr (v, it') → (List.length it' ≤ List.length it)%nat.
Proof.
  revert lines strip_line.
  induction it as [|line it IH]; intros lines strip_line; simpl;
    destruct (last_char strip_line) as [c|]; try discriminate;
    destruct (Ascii.eqb c BACKSLASH); try discriminate.
  - by intros [= _ <-].
  - intros H%IH. simpl. lia.
  - by intros [= _ <-].
Qed.

(** The body of the generator: one clause of the source per [with]. *)
Equations? tokenizer (fd : list string) : generator token
    by wf (List.length fd) lt :=
  tokenizer [] := Stop;
  tokenizer (line :: it) with bool_decide (strip line = "") => {
    | true => tokenizer it
    | false
      with bool_decide (first_char (strip line) = Some "#"%char)
           && negb (bool_decide (slice_to 2 line = "##")) => {
      | true => tokenizer it
      | false with bool_decide (first_char line = Some TAB) => {
        | true with inspect (glue_multiline line it) => {
          | exist _ (inl e) _ => Raise (escape e)
          | exist _ (inr (v, it')) _ =>
              Yield (Tokens.command, v) (tokenizer it') }
        | false with contains ":" line && negb (contains "=" line) => {
          | true with inspect (glue_multiline line it) => {
            | exist _ (inl e) _ => Raise (escape e)
            | exist _ (inr (v, it')) _ =>
                Yield (Tokens.target, v) (tokenizer it') }
          | false =>
              Yield (Tokens.expression,
                     strip_chars (" ;" ++ String TAB "") line)
                    (tokenizer it) } } } }.
Proof.
  all: simpl; try lia.
  all: match goal with
       | H : glue_multiline _ _ = inr _ |- _ =>
           apply glue_loop_consumes in H; lia
       end.
Qed.

(** ** The parser *)

(** The dictionary that [parse_target] builds for one target. The pair
    [deps] is the two-element list [[deps, order_deps]] of the source. *)
Record target_dict : Type := {
  target : string;
  deps : list string * list string;
  docs : string;
  body : list token
}.

(** An element of the AST: the dictionary of a target, or a token that
    was appended as it came (a command outside of a target body, or an
    expression). *)
Inductive ast_item : Type :=
| ast_target (d : target_dict)
| ast_command (v : string)
| ast_expression (v : string).

(** The truth value of a group of the match: [None] and the empty string
    are false. *)
Definition truthy (o : option string) : bool :=
  match o with
  | Some (String _ _) => true
  | _ => false
  end.

(** [sorted(g.strip().split()) if g else []] *)
Definition dep_names (g : option string) : list string :=
  if truthy g then sorted (str_split (strip (default "" g))) else [].

(** [g.strip().strip('#').strip() if g else ''] *)
Definition doc_text (g : option string) : string :=
  if truthy g then strip (strip_chars "#" (strip (default "" g))) else "".

(** [parse_body]: the commands that follow, up to the first token of
    another kind, which stays in the stream. The match on the kind of the
    first token is [next_belongs_to_target]: [it.peek()] at the end of the
    stream raises [StopIteration], which [parse_body] catches; any other
    exception of the tokenizer passes through. *)
Fixpoint parse_body (it : generator token)
    : exn + (list token * generator token) :=
  match it with
  | Yield (Tokens.command, v) it' =>
      match parse_body it' with
      | inl e => inl e
      | inr (body, it'') => inr ((Tokens.command, v) :: body, it'')
      end
  | Yield _ _ => inr ([], it)
  | Stop => inr ([], Stop)
  | Raise e => inl e
  end.

(** [parse_target]: [re.match(...)] is [None] when the line does not match,
    and [None.groups()] raises [AttributeError]. The first group takes part
    in every match. *)
Definition parse_target (tok : token) (it : generator token)
    (ast : list ast_item) : exn + (list ast_item * generator token) :=
  let line := tok.2 in
  match re_match target_re line with
  | None => inl (AttributeError "'NoneType' object has no attribute 'groups'")
  | Some g =>
      match parse_body it with
      | inl e => inl e
      | inr (body, it') =>
          match group g 1 with
          | None =>
              inl (AttributeError "'NoneType' object has no attribute 'strip'")
          | Some name =>
              inr ((ast ++ [ast_target
                      {| target := strip name;
                         deps := (dep_names (group g 2), dep_names (group g 3));
                         docs := doc_text (group g 4);
                         body := body |}])%list, it')
          end
      end
  end.

Lemma parse_body_remaining it b it' :
  parse_body it = inr (b, it') → (remaining it' ≤ remaining it)%nat.
Proof.
  revert b it'. induction it as [[k v] it IH| |e]; intros b it'; simpl.
  - destruct k; try (intros [= _ <-]; simpl; lia).
    destruct (parse_body it) as [e|[b0 it0]]; [discriminate|].
    intros [= _ <-]. specialize (IH _ _ eq_refl). lia.
  - by intros [= _ <-].
  - discriminate.
Qed.

(** The loop [for token in it] of [parse]. *)
Equations? parse_loop (it : generator token) (ast : list ast_item)
    : exn + list ast_item by wf (remaining it) lt :=
  parse_loop Stop ast := inr ast;
  parse_loop (Raise e) ast := inl e;
  parse_loop (Yield (Tokens.target, v) it) ast
    with inspect (parse_target (Tokens.target, v) it ast) => {
    | exist _ (inl e) _ => inl e
    | exist _ (inr (ast', it')) _ => parse_loop it' ast' };
  parse_loop (Yield (Tokens.command, v) it) ast :=
    parse_loop it (ast ++ [ast_command v])%list;
  parse_loop (Yield (Tokens.expression, v) it) ast :=
    parse_loop it (ast ++ [ast_expression v])%list.
Proof.
  all: simpl; try lia.
  unfold parse_target in *.
  destruct (re_match target_re _); [|discriminate].
  destruct (parse_body it) as [?|[b it0]] eqn:Hb; [discriminate|].
  destruct (group _ 1); [|discriminate].
  apply parse_body_remaining in Hb.
  match goal with H : inr _ = inr _ |- _ => injection H as _ <- end. lia.
Qed.

Definition parse (fd : list string) : exn + list ast_item :=
  parse_loop (tokenizer fd) [].

(** ** The graph builder *)

(** [d[k]] on a [defaultdict(set)], read only. *)
Definition dd_get (d : gmap string (gset string)) (k : string) : gset string :=
  default ∅ (d !! k).

(** [d[k]] evaluated for its effect: the key is created when absent. *)
Definition dd_touch (k : string) (d : gmap string (gset string))
    : gmap string (gset string) :=
  match d !! k with
  | Some _ => d
  | None => <[k := ∅]> d
  end.

(** [d[k].add(x)] *)
Definition dd_add (k x : string) (d : gmap string (gset string))
    : gmap string (gset string) :=
  <[k := dd_get d k ∪ {[x]}]> d.

(** [d[k].update(s)] *)
Definition dd_update (k : string) (s : gset string)
    (d : gmap string (gset string)) : gmap string (gset string) :=
  <[k := dd_get d k ∪ s]> d.

(** The three collections that the first loop fills. *)
Record direct : Type := {
  dependencies : gmap string (list string * list string);
  influences : gmap string (gset string);
  order_only : gset string
}.

Definition direct_empty : direct :=
  {| dependencies := ∅; influences := ∅; order_only := ∅ |}.

(** One round of the first loop of [get_dependencies_influences]. *)
Definition direct_step (st : direct) (item : ast_item) : direct :=
  match item with
  | ast_target d =>
      let '(deps, order_deps) := d.(deps) in
      if bool_decide (d.(target) = ".PHONY") then st
      else
        let infl := dd_touch d.(target) st.(influences) in
        let infl := foldl (λ infl k, dd_add k d.(target) infl) infl deps in
        let infl := foldl (λ infl k, dd_touch k infl) infl order_deps in
        {| dependencies := <[d.(target) := (deps, order_deps)]> st.(dependencies);
           influences := infl;
           order_only := st.(order_only) ∪ list_to_set order_deps |}
  | _ => st
  end.

Definition direct_pass (ast : list ast_item) : direct :=
  foldl direct_step direct_empty ast.

(** A loop whose body can fail: the state after the last element, or
    [None] as soon as one round fails. *)
Fixpoint for_each {S A : Type} (f : S → A → option S) (s : S) (l : list A)
    : option S :=
  match l with
  | [] => Some s
  | a :: l' =>
      match f s a with
      | Some s' => for_each f s' l'
      | None => None
      end
  end.

(** [recurse_indirect_influences], a closure over [influences] and
    [indirect_influences]. [limit] is the number of nested calls of the
    closure that are still allowed: each call takes one frame of the
    stack, so that [limit] is Python's recursion limit less the frames in
    use when the call is made, and not the recursion limit itself; with
    none left the call is [None], Python's [RecursionError]. Every
    [recurse_target] is a key of
    [influences] ([direct_pass_closed]), so that reading it creates no
    key. The members of a set are visited in the order of [elements]; the
    result does not depend on the order, the calls only add to one set. *)
Fixpoint recurse_indirect_influences (limit : nat)
    (influences : gmap string (gset string))
    (original_target recurse_target : string)
    (indirect_influences : gmap string (gset string))
    : option (gmap string (gset string)) :=
  match limit with
  | O => None
  | S limit' =>
      for_each
        (λ ind t,
           recurse_indirect_influences limit' influences original_target t ind)
        (dd_update original_target (dd_get influences recurse_target)
           indirect_influences)
        (elements (dd_get influences recurse_target))
  end.

(** The second loop, over [influences.items()]. Each round writes to
    [indirect_influences[original_target]] alone, so that the order of the
    rounds does not matter. *)
Definition indirect_pass (limit : nat) (influences : gmap string (gset string))
    : option (gmap string (gset string)) :=
  for_each
    (λ ind '(original_target, targets),
       for_each
         (λ ind t,
            recurse_indirect_influences limit influences original_target t ind)
         ind (elements targets))
    ∅ (map_to_list influences).

(** The four results of [get_dependencies_influences]. *)
Record graph : Type := {
  g_dependencies : gmap string (list string * list string);
  g_influences : gmap string (gset string);
  g_order_only : gset string;
  g_indirect_influences : gmap string (gset string)
}.

Definition get_dependencies_influences (limit : nat) (ast : list ast_item)
    : option graph :=
  let st := direct_pass ast in
  ind ← indirect_pass limit st.(influences);
  Some {| g_dependencies := st.(dependencies);
          g_influences := st.(influences);
          g_order_only := st.(order_only);
          g_indirect_influences := ind |}.

(** ** Makefiles that include others

    [check_include_instruction] reads files. The file system is a map
    [fs] from the paths of the regular files that can be opened and
    decoded to the text that [read] returns for each; [os.path.isfile] and
    the success of [open] and [read] are all the presence of the path in
    [fs]. The model has no file that exists and cannot be opened or
    decoded ([PermissionError], [UnicodeDecodeError]), and the temporary
    file is always created and written: what is proved of
    [check_include_instruction] holds of the runs without such a failure,
    and says nothing of the exceptions of the others. The file object
    that the function returns is a value of [make_file]. *)

Definition LF : ascii := "010".
Definition CR : ascii := "013".

(** The line boundaries of [str.splitlines] among the code points below
    256: line feed, vertical tab, form feed, carriage return, the
    separators 28, 29 and 30, and 133. *)
Definition is_linebreak (c : ascii) : bool :=
  let n := N_of_ascii c in
  ((10 <=? n) && (n <=? 13) || (28 <=? n) && (n <=? 30) || (n =? 133))%N.

(** [s.splitlines()]: a carriage return and the line feed after it are
    one boundary; a boundary at the end of the text opens no further
    line. *)
Fixpoint splitlines_go (cur : option string) (s : string) : list string :=
  match s with
  | EmptyString => option_list cur
  | String c s' =>
      if is_linebreak c then
        default EmptyString cur ::
          match s' with
          | String d s'' =>
              if Ascii.eqb c CR && Ascii.eqb d LF then splitlines_go None s''
              else splitlines_go None s'
          | EmptyString => []
          end
      else
        splitlines_go
          (Some (default EmptyString cur ++ String c EmptyString)) s'
  end.

Definition splitlines (s : string) : list string := splitlines_go None s.

(** The pattern [include +]. *)
Definition include_re : regex :=
  foldr re_seq (re_plus (is_char " "))
    ((λ c, re_class (is_char c)) <$> list_ascii_of_string "include").

(** [re.match(regex, string)] as a condition. *)
Definition is_include (s : string) : bool :=
  match re_match include_re s with
  | Some _ => true
  | None => false
  end.

(** [re.sub(' +', ' ', s)]: each maximal run of spaces becomes one
    space. [in_run] tells that the character before was a space. *)
Fixpoint sub_spaces_go (in_run : bool) (s : string) : string :=
  match s with
  | EmptyString => EmptyString
  | String c s' =>
      if Ascii.eqb c " " then
        if in_run then sub_spaces_go true s'
        else String " " (sub_spaces_go true s')
      else String c (sub_spaces_go false s')
  end.

Definition sub_spaces (s : string) : string := sub_spaces_go false s.

(** [s.split(sep)] for a separator that is not empty: the occurrences of
    [sep] are taken from the left and do not overlap. [skip] counts the
    characters of an occurrence that are still to be passed over, [cur]
    is the part since the last occurrence. *)
Fixpoint split_on_go (sep : string) (skip : nat) (cur : string) (s : string)
    : list string :=
  match s with
  | EmptyString => [cur]
  | String c s' =>
      match skip with
      | S n => split_on_go sep n cur s'
      | O =>
          if String.prefix sep s then
            cur :: split_on_go sep (String.length sep - 1) EmptyString s'
          else split_on_go sep 0 (cur ++ String c EmptyString) s'
      end
  end.

Definition split_on (sep s : string) : list string :=
  split_on_go sep 0 EmptyString s.

(** The exceptions of [check_include_instruction] in the model: the ones
    of [exn], and the [OSError] of an [open] on a path that is not in
    [fs] ([FileNotFoundError] and the like), with the path. *)
Inductive os_exn : Type :=
| python (e : exn)
| OSError (filename : string).

(** [[x.split('include ')[1] for x in matches]] *)
Fixpoint after_include (matches : list string) : os_exn + list string :=
  match matches with
  | [] => inr []
  | x :: matches' =>
      match split_on "include " x with
      | _ :: name :: _ =>
          match after_include matches' with
          | inl e => inl e
          | inr names => inr (name :: names)
          end
      | _ => inl (python (IndexError "list index out of range"))
      end
  end.

(** The list [makes] of the paths to open. *)
Definition makes (matches : list string) : os_exn + list string :=
  match after_include matches with
  | inl e => inl e
  | inr names => inr (split_on " " (join " " names))
  end.

(** The loop that appends the lines of the included makefiles. *)
Fixpoint read_makes (fs : gmap string string) (lines : list string)
    (makes : list string) : os_exn + list string :=
  match makes with
  | [] => inr lines
  | i :: makes' =>
      match fs !! i with
      | None => inl (OSError i)
      | Some text => read_makes fs (lines ++ splitlines text) makes'
      end
  end.

(** What [check_include_instruction] returns: the empty dictionary, the
    file [filename] opened for reading, or a temporary file opened for
    reading, with its text. *)
Inductive make_file : Type :=
| no_file
| opened (filename : string)
| temporary (text : string).

Definition check_include_instruction (fs : gmap string string)
    (filename : string) : os_exn + make_file :=
  match fs !! filename with
  | None => inr no_file
  | Some text =>
      let lines := splitlines text in
      let matches := sub_spaces <$> List.filter is_include lines in
      if Nat.eqb (List.length matches) 0 then inr (opened filename)
      else
        match makes matches with
        | inl e => inl e
        | inr names =>
            match read_makes fs lines names with
            | inl e => inl e
            | inr lines' =>
                inr (temporary
                       (join (String LF EmptyString)
                          (List.filter (λ s, negb (is_include s)) lines')))
            end
        end
  end.

(** * The vocabulary of the properties *)

(** What the tokenizer does with a line that it splices: the token of the
    given kind with the spliced text, then the tokens of the lines that the
    splice left; or the exception of the splice. *)
Definition spliced (kind : Tokens.t) (line : string) (it : list string)
    : generator token :=
  match glue_multiline line it with
  | inl e => Raise (escape e)
  | inr (v, it') => Yield (kind, v) (tokenizer it')
  end.

(** The four tests of the tokenizer on a line, in the order of the source. *)
Definition is_blank (line : string) : bool := bool_decide (strip line = "").

Definition is_comment (line : string) : bool :=
  bool_decide (first_char (strip line) = Some "#"%char)
  && negb (bool_decide (slice_to 2 line = "##")).

Definition starts_with_tab (line : string) : bool :=
  bool_decide (first_char line = Some TAB).

Definition is_rule (line : string) : bool :=
  contains ":" line && negb (contains "=" line).

(** A comment line: the trimmed line starts with [#] and the raw line does
    not start with [##]. *)
Definition comment_line (line : string) : Prop :=
  first_char (strip line) = Some "#"%char ∧ slice_to 2 line ≠ "##".

(** A line that opens a target: it has a [:] and no [=]. *)
Definition rule_line (line : string) : Prop :=
  contains ":" line = true ∧ contains "=" line = false.

(** [prepend l g]: the generator that yields [l] and goes on as [g]. *)
Definition prepend {A : Type} (l : list A) (g : generator A) : generator A :=
  foldr Yield g l.

(** A line whose trimmed form ends with the continuation marker. *)
Definition continued (line : string) : Prop :=
  last_char (strip line) = Some BACKSLASH.

(** A line that the tokenizer hands to [glue_multiline]: not a comment, and
    a command (it starts with a tab) or a target (a colon and no equals
    sign). *)
Definition spliced_line (line : string) : Prop :=
  ¬ comment_line line ∧ (first_char line = Some TAB ∨ rule_line line).

(** The words of a group of the match: what [dep_names] sorts. *)
Definition group_words (g : option string) : list string :=
  if truthy g then str_split (strip (default "" g)) else [].

(** A target token whose text matches the pattern. *)
Definition well_formed (tok : token) : Prop :=
  tok.1 = Tokens.target → is_Some (re_match target_re tok.2).

(** The targets of an AST that the graph builder takes into the graph. *)
Definition graphed (ast : list ast_item) (d : target_dict) : Prop :=
  ast_target d ∈ ast ∧ d.(target) ≠ ".PHONY".

(** An element of the AST other than a target named [.PHONY]. *)
Definition not_phony (item : ast_item) : bool :=
  match item with
  | ast_target d => negb (bool_decide (d.(target) = ".PHONY"))
  | _ => true
  end.

(** [edge infl a b]: [b] is in [infl[a]], that is, [a] is a required
    dependency of [b]. *)
Definition edge (infl : gmap string (gset string)) (a b : string) : Prop :=
  b ∈ dd_get infl a.

(** The influence graph has no cycle. *)
Definition acyclic (infl : gmap string (gset string)) : Prop :=
  ∀ x, ¬ tc (edge infl) x x.

(** [beyond infl t y]: [y] is a direct influence of [t] or of a target
    that [t] influences, directly or not. *)
Definition beyond (infl : gmap string (gset string)) (t y : string) : Prop :=
  ∃ x, rtc (edge infl) t x ∧ edge infl x y.

(** The AST of the lines [A: B], [B: C], [C:]. *)
Definition chain_ast : list ast_item :=
  [ast_target {| target := "A"; deps := (["B"], []); docs := ""; body := [] |};
   ast_target {| target := "B"; deps := (["C"], []); docs := ""; body := [] |};
   ast_target {| target := "C"; deps := ([], []); docs := ""; body := [] |}].

(** The AST of the lines [A: B], [B: A]. *)
Definition cycle_ast : list ast_item :=
  [ast_target {| target := "A"; deps := (["B"], []); docs := ""; body := [] |};
   ast_target {| target := "B"; deps := (["A"], []); docs := ""; body := [] |}].

(** ** More vocabulary: text and tokens *)

(** Every character of [s] is in the class [p]. *)
Fixpoint all_chars (p : ascii → bool) (s : string) : bool :=
  match s with
  | EmptyString => true
  | String c s' => p c && all_chars p s'
  end.

(** What [glue_multiline] keeps of one physical line:
    [line.strip().rstrip('\\').strip()]. *)
Definition piece (line : string) : string :=
  strip (rstrip_chars (String BACKSLASH "") (strip line)).

(** The kind of the token of a spliced line. *)
Definition kind_of (line : string) : Tokens.t :=
  if starts_with_tab line then Tokens.command else Tokens.target.

(** A line that gives no token: empty once trimmed, or a comment. *)
Definition skipped (line : string) : Prop :=
  strip line = "" ∨ comment_line line.

(** ** More vocabulary: the AST against the tokens *)

(** The outline of a token: its kind, and its text unless it is a target
    (the text of a target line is not kept in the AST). *)
Definition outline (tok : token) : Tokens.t * option string :=
  match tok.1 with
  | Tokens.target => (Tokens.target, None)
  | k => (k, Some tok.2)
  end.

(** The outline of an element of the AST: a record stands for its target
    token and the tokens of its body. *)
Definition item_outline (item : ast_item) : list (Tokens.t * option string) :=
  match item with
  | ast_target d => (Tokens.target, None) :: (outline <$> d.(body))
  | ast_command v => [(Tokens.command, Some v)]
  | ast_expression v => [(Tokens.expression, Some v)]
  end.

Definition ast_outline (ast : list ast_item)
    : list (Tokens.t * option string) :=
  ast ≫= item_outline.

(** A command of its own right after a target record. *)
Definition command_after_target (ast : list ast_item) : Prop :=
  ∃ l1 d v l2, ast = (l1 ++ ast_target d :: ast_command v :: l2)%list.

(** ** More vocabulary: what the pattern matches *)

(** [matches r s s' l]: [r] matches the start of [s] up to its suffix [s']
    and captures the groups [l], the last one first. This is the reading
    of a pattern as the set of its matches, without the order in which
    [re] tries them. *)
Inductive matches : regex → string → string → groups → Prop :=
| matches_class p c s :
    p c = true → matches (re_class p) (String c s) s []
| matches_plus p pre s :
    pre ≠ "" → all_chars p pre = true → matches (re_plus p) (pre ++ s) s []
| matches_plus_lazy p pre s :
    pre ≠ "" → all_chars p pre = true →
    matches (re_plus_lazy p) (pre ++ s) s []
| matches_opt r s s' l :
    matches r s s' l → matches (re_opt r) s s' l
| matches_opt_skip r s :
    matches (re_opt r) s s []
| matches_group i r s s' l :
    matches r s s' l → matches (re_group i r) s s' ((i, consumed s s') :: l)
| matches_seq r1 r2 s s' s'' l1 l2 :
    matches r1 s s' l1 → matches r2 s' s'' l2 →
    matches (re_seq r1 r2) s s'' (l2 ++ l1)%list.

(** [captures r i c]: some match of [r] captures [c] as its group [i]. *)
Fixpoint captures (r : regex) (i : nat) (c : string) : Prop :=
  match r with
  | re_group j r' =>
      (i = j ∧ ∃ s s' l, matches r' s s' l ∧ c = consumed s s')
      ∨ captures r' i c
  | re_opt r' => captures r' i c
  | re_seq r1 r2 => captures r1 i c ∨ captures r2 i c
  | _ => False
  end.

(** A pattern that matches at every position: made of optional parts. *)
Fixpoint optional (r : regex) : bool :=
  match r with
  | re_opt _ => true
  | re_seq r1 r2 => optional r1 && optional r2
  | re_group _ r' => optional r'
  | _ => false
  end.

(** [s[1:]] *)
Definition str_tail (s : string) : string :=
  match s with
  | EmptyString => EmptyString
  | String _ s' => s'
  end.

(** A character of a name: not white space, and in the class [q]. *)
Definition name_char (q : ascii → bool) (c : ascii) : bool :=
  negb (isspace c) && q c.

(** The names that the graph builder defines, one for each target of the
    AST other than [.PHONY], in the order of the AST. *)
Definition target_names (ast : list ast_item) : list string :=
  omap (λ item,
          match item with
          | ast_target d =>
              if bool_decide (d.(target) = ".PHONY") then None
              else Some d.(target)
          | _ => None
          end) ast.

(** ** More vocabulary: include lines *)

Fixpoint spaces (n : nat) : string :=
  match n with
  | O => EmptyString
  | S n' => String " " (spaces n')
  end.

(** The names of a line, each after one space and [n] more. *)
Fixpoint spaced (row : list (nat * string)) : string :=
  match row with
  | [] => EmptyString
  | (n, w) :: row' => spaces (S n) ++ w ++ spaced row'
  end.

(** The line [include], then the names of [row], each after one or more
    spaces, and nothing after the last name. *)
Definition include_line (row : list (nat * string)) : string :=
  "include" ++ spaced row.

(** [s.endswith(e)] *)
Fixpoint ends_with (e s : string) : bool :=
  String.eqb e s ||
  match s with
  | EmptyString => false
  | String _ s' => ends_with e s'
  end.

(** A name on an include line: not empty, without a space, and not
    ending with the word [include]. *)
Definition include_name (w : string) : Prop :=
  w ≠ "" ∧ all_chars (not_in " ") w = true ∧ ends_with "include" w = false.

(** [sep] occurs in [s]. *)
Fixpoint occurs (sep s : string) : bool :=
  String.prefix sep s ||
  match s with
  | EmptyString => false
  | String _ s' => occurs sep s'
  end.

(** A line of [str.splitlines] holds no line boundary. *)
Definition no_linebreak (l : string) : Prop :=
  all_chars (λ c, negb (is_linebreak c)) l = true.

(** Three files: [Makefile] includes [a.mk] and [b.mk]; [a.mk] has an
    include line of its own, for a file that does not exist. *)
Definition include_fs : gmap string string :=
  <["Makefile" :=
      "all: a" ++ String LF
        ("include   a.mk  b.mk" ++ String LF ("x: y" ++ String LF ""))]>
  (<["a.mk" := "a: b" ++ String LF ("include c.mk" ++ String LF "")]>
  (<["b.mk" := "b:" ++ String LF ""]> ∅)).

(** An include line with [t] spaces after its last name. *)
Definition include_line_then (line : list (nat * string) * nat) : string :=
  include_line line.1 ++ spaces line.2.

(** The words of such a line after [include]: its names, and the empty
    word when spaces follow the last name. *)
Definition words_then (line : list (nat * string) * nat) : list string :=
  (line.1.*2 ++ match line.2 with O => [] | S _ => [EmptyString] end)%list.

(** A target token whose text starts with a character that is not white
    space. *)
Definition starts_with_text (tok : token) : Prop :=
  tok.1 = Tokens.target →
  ∃ c, first_char tok.2 = Some c ∧ isspace c = false.

(** A record whose name is not empty and is trimmed. *)
Definition named (item : ast_item) : Prop :=
  match item with
  | ast_target d => d.(target) ≠ "" ∧ strip d.(target) = d.(target)
  | _ => True
  end.

(** * Properties *)

(** ** Trimming *)

Lemma lstrip_by_first p s c :
  first_char (lstrip_by p s) = Some c → p c = false.
Proof.
  induction s as [|d s IH]; simpl; [done|].
  destruct (p d) eqn:Hd; [done|]. by intros [= <-].
Qed.

Lemma rstrip_by_head p s c r :
  rstrip_by p s = String c r → first_char s = Some c.
Proof.
  destruct s as [|d s]; simpl; [done|].
  destruct (rstrip_by p s); [destruct (p d)|]; by intros [= <- _].
Qed.

Lemma rstrip_by_last p s c :
  last_char (rstrip_by p s) = Some c → p c = false.
Proof.
  induction s as [|d s IH]; simpl; [done|].
  destruct (rstrip_by p s) as [|e r] eqn:Hr.
  - destruct (p d) eqn:Hd; simpl; [done|]. by intros [= <-].
  - simpl in *. done.
Qed.

Lemma lstrip_by_id p s c :
  first_char s = Some c → p c = false → lstrip_by p s = s.
Proof. destruct s as [|d s]; simpl; [done|]. by intros [= ->] ->. Qed.

Lemma rstrip_by_id p s c :
  last_char s = Some c → p c = false → rstrip_by p s = s.
Proof.
  induction s as [|d s IH]; simpl; [done|].
  destruct s as [|e s].
  - intros [= ->] ->. done.
  - intros Hlast Hc. rewrite (IH Hlast Hc). done.
Qed.

Lemma last_char_None s : last_char s = None → s = "".
Proof.
  induction s as [|c s IH]; simpl; [done|].
  destruct s; [done|]. by intros ?%IH.
Qed.

Lemma strip_by_idemp p s :
  rstrip_by p (lstrip_by p (rstrip_by p (lstrip_by p s))) =
  rstrip_by p (lstrip_by p s).
Proof.
  destruct (rstrip_by p (lstrip_by p s)) as [|c r] eqn:Hs; [done|].
  assert (p c = false) as Hc.
  { apply rstrip_by_head in Hs. by apply lstrip_by_first in Hs. }
  rewrite (lstrip_by_id p _ c) by done.
  destruct (last_char (String c r)) as [e|] eqn:He.
  - apply (rstrip_by_id p _ e); [done|].
    apply (rstrip_by_last p (lstrip_by p s)). by rewrite Hs.
  - by apply last_char_None in He.
Qed.

Lemma strip_idemp s : strip (strip s) = strip s.
Proof. apply strip_by_idemp. Qed.

(** The piece of a line that is not continued is the trimmed line. *)
Lemma piece_not_continued line : ¬ continued line → piece line = strip line.
Proof.
  unfold continued, piece, rstrip_chars. intros Hnc.
  destruct (last_char (strip line)) as [c|] eqn:Hlast.
  - rewrite (rstrip_by_id _ _ c Hlast); [apply strip_idemp|].
    simpl. rewrite orb_false_r. apply Ascii.eqb_neq. by intros ->.
  - apply last_char_None in Hlast. by rewrite Hlast.
Qed.

(** ** The tokenizer, one line at a time *)

Lemma tokenizer_cons line it :
  tokenizer (line :: it) =
  if is_blank line then tokenizer it
  else if is_comment line then tokenizer it
  else if starts_with_tab line then spliced Tokens.command line it
  else if is_rule line then spliced Tokens.target line it
  else Yield (Tokens.expression, strip_chars (" ;" ++ String TAB "") line)
             (tokenizer it).
Proof.
  unfold is_blank, is_comment, starts_with_tab, is_rule, spliced.
  simp tokenizer.
  destruct (bool_decide (strip line = "")); simpl; [done|].
  destruct (_ && _); simpl; [done|].
  destruct (bool_decide (first_char line = Some TAB)); simpl.
  - unfold inspect. destruct (glue_multiline line it) as [e|[v it']]; simpl; done.
  - destruct (_ && _); simpl; [|done].
    unfold inspect. destruct (glue_multiline line it) as [e|[v it']]; simpl; done.
Qed.

Lemma is_blank_spec line : is_blank line = true ↔ strip line = "".
Proof. unfold is_blank. by rewrite bool_decide_eq_true. Qed.

Lemma is_comment_spec line : is_comment line = true ↔ comment_line line.
Proof.
  unfold is_comment, comment_line.
  rewrite andb_true_iff, negb_true_iff, bool_decide_eq_true,
    bool_decide_eq_false. done.
Qed.

Lemma starts_with_tab_spec line :
  starts_with_tab line = true ↔ first_char line = Some TAB.
Proof. unfold starts_with_tab. by rewrite bool_decide_eq_true. Qed.

Lemma is_rule_spec line : is_rule line = true ↔ rule_line line.
Proof.
  unfold is_rule, rule_line. by rewrite andb_true_iff, negb_true_iff.
Qed.

Lemma not_true_false b (P : Prop) : (b = true ↔ P) → ¬ P → b = false.
Proof. destruct b; intuition. Qed.

(** A line that is not continued is spliced at once. *)
Lemma glue_loop_stop lines strip_line it c :
  last_char strip_line = Some c → c ≠ BACKSLASH →
  glue_loop lines strip_line it =
  inr (join " " (lines ++ [strip (rstrip_chars (String BACKSLASH "")
                                   strip_line)])%list, it).
Proof.
  intros Hlast Hc%Ascii.eqb_neq. destruct it; simpl; by rewrite Hlast, Hc.
Qed.

Lemma tokenizer_splice_ok line it v it' :
  strip line ≠ "" → spliced_line line →
  glue_multiline line it = inr (v, it') →
  tokenizer (line :: it) = Yield (kind_of line, v) (tokenizer it').
Proof.
  intros Hb%(not_true_false _ _ (is_blank_spec line)) [Hnc Hk] Hglue.
  rewrite tokenizer_cons, Hb.
  rewrite (not_true_false _ _ (is_comment_spec line) Hnc).
  unfold spliced, kind_of. rewrite Hglue.
  destruct (starts_with_tab line) eqn:Ht; [done|].
  destruct Hk as [Hk|Hk].
  - apply starts_with_tab_spec in Hk. congruence.
  - apply is_rule_spec in Hk. by rewrite Hk.
Qed.

Lemma glue_loop_inl lines strip_line it e :
  glue_loop lines strip_line it = inl e →
  e = StopIteration ∨ e = IndexError "string index out of range".
Proof.
  revert lines strip_line.
  induction it as [|line it IH]; intros lines strip_line; simpl;
    destruct (last_char strip_line) as [c|];
    try (intros [= <-]; by right);
    destruct (Ascii.eqb c BACKSLASH); try discriminate.
  - intros [= <-]. by left.
  - apply IH.
Qed.

(** What the tokenizer does with a line that it splices. *)
Lemma spliced_cases kind line it :
  strip line ≠ "" →
  (¬ continued line →
   spliced kind line it = Yield (kind, strip line) (tokenizer it))
  ∧ (∀ v it', glue_multiline line it = inr (v, it') →
              spliced kind line it = Yield (kind, v) (tokenizer it'))
  ∧ (∀ e, glue_multiline line it = inl e →
          (e = StopIteration ∨ e = IndexError "string index out of range")
          ∧ spliced kind line it = Raise (escape e)).
Proof.
  intros Hb. unfold spliced. split; [|split].
  - intros Hnc. unfold glue_multiline.
    destruct (last_char (strip line)) as [c|] eqn:Hc.
    + rewrite (glue_loop_stop _ _ _ c Hc) by (by intros ->). simpl.
      f_equal. f_equal. apply (piece_not_continued line Hnc).
    + by apply last_char_None in Hc.
  - by intros v it' ->.
  - intros e He. split; [by eapply glue_loop_inl|]. by rewrite He.
Qed.

(** C4, as the specification states it, fails: a line that starts with a
    tab and ends with a continuation marker, as the last line of the
    input, gives no command token; the tokenizer raises. The same holds
    for a target line. *)
Lemma splice_line_without_token :
  ¬ (∀ line it,
       strip line ≠ "" → ¬ comment_line line → first_char line = Some TAB →
       ∃ v g, tokenizer (line :: it) = Yield (Tokens.command, v) g)
  ∧ ¬ (∀ line it,
         strip line ≠ "" → ¬ comment_line line →
         first_char line ≠ Some TAB → rule_line line →
         ∃ v g, tokenizer (line :: it) = Yield (Tokens.target, v) g)
  ∧ yielded (tokenizer [String TAB "cc \"]) = []
  ∧ raised (tokenizer [String TAB "cc \"])
    = Some (RuntimeError "generator raised StopIteration").
Proof.
  split; [|split; [|split]].
  - intros H. destruct (H (String TAB "cc \") []) as (v & g & Hv).
    + discriminate.
    + intros [Hc _]. discriminate Hc.
    + reflexivity.
    + vm_compute in Hv. discriminate Hv.
  - intros H. destruct (H "all: a \" []) as (v & g & Hv).
    + discriminate.
    + intros [Hc _]. discriminate Hc.
    + discriminate.
    + split; reflexivity.
    + vm_compute in Hv. discriminate Hv.
  - by vm_compute.
  - by vm_compute.
Qed.

(** C4, amended. The rules of the tokenizer for one line, in the order of
    the source, each under the failure of the ones before it: a line that
    is empty once trimmed gives no token; a comment line gives no token; a
    line that starts with a tab is spliced into a command token; a line
    with a colon and no equals sign is spliced into a target token; any
    other line gives an expression token whose text is the line without
    the spaces, semicolons and tabs at its two ends. A line that is
    spliced gives its token with the trimmed line as text when it is not
    continued, and with the text of the splice when [glue_multiline]
    returns one; when [glue_multiline] raises ([StopIteration] at the end
    of the input, [IndexError] at a line that is empty once trimmed), the
    tokenizer raises and the line gives no token. *)
Theorem tokenizer_rules (line : string) (it : list string) :
  (strip line = "" → tokenizer (line :: it) = tokenizer it)
  ∧ (strip line ≠ "" → comment_line line →
     tokenizer (line :: it) = tokenizer it)
  ∧ (strip line ≠ "" → ¬ comment_line line → first_char line = Some TAB →
     (¬ continued line →
      tokenizer (line :: it)
      = Yield (Tokens.command, strip line) (tokenizer it))
     ∧ (∀ v it', glue_multiline line it = inr (v, it') →
                 tokenizer (line :: it)
                 = Yield (Tokens.command, v) (tokenizer it'))
     ∧ (∀ e, glue_multiline line it = inl e →
             (e = StopIteration ∨ e = IndexError "string index out of range")
             ∧ tokenizer (line :: it) = Raise (escape e)))
  ∧ (strip line ≠ "" → ¬ comment_line line → first_char line ≠ Some TAB →
     rule_line line →
     (¬ continued line →
      tokenizer (line :: it)
      = Yield (Tokens.target, strip line) (tokenizer it))
     ∧ (∀ v it', glue_multiline line it = inr (v, it') →
                 tokenizer (line :: it)
                 = Yield (Tokens.target, v) (tokenizer it'))
     ∧ (∀ e, glue_multiline line it = inl e →
             (e = StopIteration ∨ e = IndexError "string index out of range")
             ∧ tokenizer (line :: it) = Raise (escape e)))
  ∧ (strip line ≠ "" → ¬ comment_line line → first_char line ≠ Some TAB →
     ¬ rule_line line →
     tokenizer (line :: it) =
     Yield (Tokens.expression, strip_chars (" ;" ++ String TAB "") line)
           (tokenizer it)).
Proof.
  rewrite tokenizer_cons.
  split; [|split; [|split; [|split]]].
  - intros ->%is_blank_spec. done.
  - intros Hb%(not_true_false _ _ (is_blank_spec line)) ->%is_comment_spec.
    by rewrite Hb.
  - intros Hne Hc%(not_true_false _ _ (is_comment_spec line))
      ->%starts_with_tab_spec.
    rewrite (not_true_false _ _ (is_blank_spec line) Hne), Hc.
    by apply spliced_cases.
  - intros Hne Hc%(not_true_false _ _ (is_comment_spec line))
      Ht%(not_true_false _ _ (starts_with_tab_spec line)) ->%is_rule_spec.
    rewrite (not_true_false _ _ (is_blank_spec line) Hne), Hc, Ht.
    by apply spliced_cases.
  - intros Hb%(not_true_false _ _ (is_blank_spec line))
      Hc%(not_true_false _ _ (is_comment_spec line))
      Ht%(not_true_false _ _ (starts_with_tab_spec line))
      Hr%(not_true_false _ _ (is_rule_spec line)).
    by rewrite Hb, Hc, Ht, Hr.
Qed.

(** The five rules at work, on one line each, and a splice of two
    lines. *)
Lemma tokenizer_rules_witness :
  tokenizer ["  "; "x"] = tokenizer ["x"]
  ∧ tokenizer [" # note"; "x"] = tokenizer ["x"]
  ∧ tokenizer [String TAB "cc -c x.c"; "x"] =
    Yield (Tokens.command, "cc -c x.c") (tokenizer ["x"])
  ∧ tokenizer [String TAB "cc \"; " -c x.c"; "x"] =
    Yield (Tokens.command, "cc -c x.c") (tokenizer ["x"])
  ∧ tokenizer ["## all: x"; "x"] =
    Yield (Tokens.target, "## all: x") (tokenizer ["x"])
  ∧ tokenizer ["all: x \"] = Raise (escape StopIteration)
  ∧ tokenizer [" CC := gcc ;"; "x"] =
    Yield (Tokens.expression, "CC := gcc") (tokenizer ["x"]).
Proof.
  split; [|split; [|split; [|split; [|split; [|split]]]]].
  - apply (proj1 (tokenizer_rules "  " ["x"])). reflexivity.
  - apply (proj1 (proj2 (tokenizer_rules " # note" ["x"]))).
    + discriminate.
    + split; [reflexivity | discriminate].
  - refine (proj1 (proj1 (proj2 (proj2
              (tokenizer_rules (String TAB "cc -c x.c") ["x"])))
              _ _ _) _).
    + discriminate.
    + intros [H _]. discriminate H.
    + reflexivity.
    + intros H. discriminate H.
  - refine (proj1 (proj2 (proj1 (proj2 (proj2
              (tokenizer_rules (String TAB "cc \") [" -c x.c"; "x"])))
              _ _ _)) _ _ _).
    + discriminate.
    + intros [H _]. discriminate H.
    + reflexivity.
    + reflexivity.
  - refine (proj1 (proj1 (proj2 (proj2 (proj2
              (tokenizer_rules "## all: x" ["x"]))))
              _ _ _ _) _).
    + discriminate.
    + intros [_ H]. apply H. reflexivity.
    + discriminate.
    + split; reflexivity.
    + intros H. discriminate H.
  - refine (proj2 (proj2 (proj2 (proj1 (proj2 (proj2 (proj2
              (tokenizer_rules "all: x \" []))))
              _ _ _ _)) _ _)).
    + discriminate.
    + intros [H _]. discriminate H.
    + discriminate.
    + split; reflexivity.
    + reflexivity.
  - apply (proj2 (proj2 (proj2 (proj2 (tokenizer_rules " CC := gcc ;" ["x"]))))).
    + discriminate.
    + intros [H _]. discriminate H.
    + discriminate.
    + intros [_ H]. discriminate H.
Defined.

(** ** The tokenizer on a whole input *)

Lemma yielded_prepend {A : Type} (l : list A) (g : generator A) :
  yielded (prepend l g) = (l ++ yielded g)%list.
Proof. induction l as [|a l IH]; simpl; [done|]. by rewrite <- IH. Qed.

Lemma raised_prepend {A : Type} (l : list A) (g : generator A) :
  raised (prepend l g) = raised g.
Proof. by induction l. Qed.

Lemma glue_loop_app lines strip_line it rest v it' :
  glue_loop lines strip_line it = inr (v, it') →
  glue_loop lines strip_line (it ++ rest) = inr (v, (it' ++ rest)%list).
Proof.
  revert lines strip_line.
  induction it as [|line it IH]; intros lines strip_line; simpl.
  - destruct rest; simpl;
      destruct (last_char strip_line) as [c|]; try discriminate;
      destruct (Ascii.eqb c BACKSLASH); try discriminate;
      by intros [= <- <-].
  - destruct (last_char strip_line) as [c|]; try discriminate.
    destruct (Ascii.eqb c BACKSLASH); [apply IH|].
    by intros [= <- <-].
Qed.

(** A splice that runs into the end of the input. *)
Lemma glue_loop_end lines strip_line more :
  last_char strip_line = Some BACKSLASH →
  Forall continued more →
  glue_loop lines strip_line more = inl StopIteration.
Proof.
  intros Hs Hmore. revert lines strip_line Hs.
  induction Hmore as [|line more Hline _ IH]; intros lines strip_line Hs;
    simpl; rewrite Hs; simpl; [done|].
  by apply IH.
Qed.

(** A splice that runs into a line that is empty once trimmed. *)
Lemma glue_loop_blank lines strip_line more blank rest :
  last_char strip_line = Some BACKSLASH →
  Forall continued more →
  strip blank = "" →
  glue_loop lines strip_line (more ++ blank :: rest) =
  inl (IndexError "string index out of range").
Proof.
  intros Hs Hmore Hblank. revert lines strip_line Hs.
  induction Hmore as [|line more Hline _ IH]; intros lines strip_line Hs;
    simpl; rewrite Hs; simpl.
  - rewrite Hblank. by destruct rest.
  - by apply IH.
Qed.

Lemma continued_not_blank line : continued line → is_blank line = false.
Proof.
  unfold continued, is_blank. intros H.
  apply bool_decide_eq_false. intros E. by rewrite E in H.
Qed.

(** The tokenizer on a spliced line whose splice fails. *)
Lemma tokenizer_splice_fails line it e :
  continued line → spliced_line line →
  glue_multiline line it = inl e →
  tokenizer (line :: it) = Raise (escape e).
Proof.
  intros Hc [Hnc Hk] Hglue. rewrite tokenizer_cons.
  rewrite (continued_not_blank _ Hc).
  rewrite (not_true_false _ _ (is_comment_spec line) Hnc).
  unfold spliced. rewrite Hglue.
  destruct (starts_with_tab line) eqn:Ht; [done|].
  destruct Hk as [Hk|Hk].
  - apply starts_with_tab_spec in Hk. congruence.
  - apply is_rule_spec in Hk. by rewrite Hk.
Qed.

(** When the tokenizer returns on [pre], it starts afresh on what follows
    [pre]. *)
Lemma tokenizer_app pre rest :
  raised (tokenizer pre) = None →
  tokenizer (pre ++ rest) = prepend (yielded (tokenizer pre)) (tokenizer rest).
Proof.
  remember (List.length pre) as n eqn:Hn. revert pre Hn.
  induction n as [n IH] using lt_wf_ind. intros [|line it] Hn.
  { by simp tokenizer. }
  simpl in Hn. subst n.
  assert (Hsplice : ∀ kind,
    raised (spliced kind line it) = None →
    spliced kind line (it ++ rest) =
    prepend (yielded (spliced kind line it)) (tokenizer rest)).
  { intros kind. unfold spliced.
    destruct (glue_multiline line it) as [e|[v it']] eqn:Hglue; [done|].
    unfold glue_multiline in *.
    rewrite (glue_loop_app _ _ _ rest _ _ Hglue). simpl. intros Hr.
    f_equal. apply (IH (List.length it')); [|done..].
    apply glue_loop_consumes in Hglue. lia. }
  simpl. rewrite !tokenizer_cons.
  destruct (is_blank line); [apply (IH (List.length it)); [lia|done]|].
  destruct (is_comment line); [apply (IH (List.length it)); [lia|done]|].
  destruct (starts_with_tab line); [apply Hsplice|].
  destruct (is_rule line); [apply Hsplice|].
  simpl. intros Hr. f_equal. by apply (IH (List.length it)); [lia|..].
Qed.

(** ** The regular expression of a target line *)

(** A successful match went through its continuation, with the groups it
    had and those it captured on the way. *)
Lemma star_greedy_Some {R : Type} p (k : string → option R) s x :
  star_greedy p k s = Some x → ∃ s', k s' = Some x.
Proof.
  induction s as [|c s IH]; simpl; [eauto|].
  destruct (p c); [|eauto].
  destruct (star_greedy p k s) as [y|]; [|eauto].
  intros [= ->]. by apply IH.
Qed.

Lemma plus_lazy_Some {R : Type} p (k : string → option R) s x :
  plus_lazy p k s = Some x → ∃ s', k s' = Some x.
Proof.
  induction s as [|c s IH]; simpl; [done|].
  destruct (p c); [|done].
  destruct (k s) as [y|] eqn:Hk; [|done].
  intros [= ->]. eauto.
Qed.

Lemma rmatch_Some {R : Type} r s g (k : string → groups → option R) x :
  rmatch r s g k = Some x →
  ∃ s' l, k s' (l ++ g)%list = Some x.
Proof.
  revert s g k.
  induction r as [p|p|p|r IH|i r IH|r1 IH1 r2 IH2]; intros s g k; simpl.
  - destruct s as [|c s]; [done|]. destruct (p c); [|done].
    intros H. by exists s, [].
  - destruct s as [|c s]; simpl; [done|]. destruct (p c); [|done].
    intros [s' H]%star_greedy_Some. by exists s', [].
  - intros [s' H]%plus_lazy_Some. by exists s', [].
  - destruct (rmatch r s g k) as [y|] eqn:Hr.
    + intros [= ->]. by apply IH in Hr.
    + intros H. by exists s, [].
  - intros (s' & l & H)%IH. exists s', ((i, consumed s s') :: l). done.
  - intros (s' & l & (s'' & l' & H)%IH2)%IH1.
    exists s'', (l' ++ l)%list. by rewrite <- app_assoc.
Qed.

Lemma group_is_Some g i v l l' : g = (l ++ (i, v) :: l')%list → is_Some (group g i).
Proof.
  intros ->. unfold group.
  induction l as [|[j w] l IH]; simpl.
  - rewrite Nat.eqb_refl. by eexists.
  - destruct (Nat.eqb j i); [by eexists|done].
Qed.

(** The group that opens a pattern takes part in every match of it. *)
Lemma re_match_first_group i r rest s g :
  re_match (re_seq (re_group i r) rest) s = Some g → is_Some (group g i).
Proof.
  unfold re_match. cbn [rmatch].
  intros (s' & l & (s'' & l' & [= <-])%rmatch_Some)%rmatch_Some.
  by eapply group_is_Some.
Qed.

Lemma target_re_name s g : re_match target_re s = Some g → is_Some (group g 1).
Proof.
  assert (∃ rest, target_re = re_seq (re_group 1 (re_plus_lazy dot)) rest)
    as [rest ->] by (eexists; reflexivity).
  apply re_match_first_group.
Qed.

(** ** The parser *)

Lemma parse_loop_yield k v it ast :
  parse_loop (Yield (k, v) it) ast =
  match k with
  | Tokens.target =>
      match parse_target (Tokens.target, v) it ast with
      | inl e => inl e
      | inr (ast', it') => parse_loop it' ast'
      end
  | Tokens.command => parse_loop it (ast ++ [ast_command v])
  | Tokens.expression => parse_loop it (ast ++ [ast_expression v])
  end.
Proof.
  destruct k; simp parse_loop; [|done..].
  unfold inspect.
  generalize (@eq_refl _ (parse_target (Tokens.target, v) it ast)).
  generalize (parse_target (Tokens.target, v) it ast) at 2 4 5.
  by intros [e|[ast' it']] Heq.
Qed.

(** What [parse_target] appends when it returns. *)
Lemma parse_target_inr tok it ast ast' it' :
  parse_target tok it ast = inr (ast', it') →
  ∃ g name body,
    re_match target_re tok.2 = Some g
    ∧ group g 1 = Some name
    ∧ parse_body it = inr (body, it')
    ∧ ast' = (ast ++ [ast_target
                {| target := strip name;
                   deps := (dep_names (group g 2), dep_names (group g 3));
                   docs := doc_text (group g 4);
                   body := body |}])%list.
Proof.
  unfold parse_target.
  destruct (re_match target_re tok.2) as [g|] eqn:Hg; [|done].
  destruct (parse_body it) as [e|[body it0]] eqn:Hbody; [done|].
  destruct (group g 1) as [name|] eqn:Hname; [|done].
  intros [= <- <-]. by exists g, name, body.
Qed.

(** A property of the elements of the AST that every round of the loop
    keeps holds of the result of [parse]. *)
Lemma parse_loop_Forall (P : ast_item → Prop) :
  (∀ tok it ast ast' it',
     parse_target tok it ast = inr (ast', it') →
     ∃ d, ast' = (ast ++ [ast_target d])%list ∧ P (ast_target d)) →
  (∀ v, P (ast_command v)) →
  (∀ v, P (ast_expression v)) →
  ∀ it ast ast',
    Forall P ast → parse_loop it ast = inr ast' → Forall P ast'.
Proof.
  intros Htarget Hcommand Hexpression it.
  remember (remaining it) as n eqn:Hn. revert it Hn.
  induction n as [n IH] using lt_wf_ind.
  intros [[k v] it| |e] Hn ast ast' Hast; simp parse_loop.
  - rewrite parse_loop_yield. simpl in Hn. destruct k.
    + destruct (parse_target _ it ast) as [e|[ast0 it0]] eqn:Ht; [done|].
      destruct (Htarget _ _ _ _ _ Ht) as (d & -> & Hd).
      apply parse_target_inr in Ht as (_ & _ & b & _ & _ & Hb%parse_body_remaining & _).
      apply (IH (remaining it0)); [lia|done|].
      apply Forall_app. by split; [|constructor].
    + apply (IH (remaining it)); [lia|done|].
      apply Forall_app. by split; [|constructor].
    + apply (IH (remaining it)); [lia|done|].
      apply Forall_app. by split; [|constructor].
  - by intros [= <-].
  - done.
Qed.

(** An exception of the tokenizer is not lost in the parser. *)
Lemma parse_body_raised it b it' :
  parse_body it = inr (b, it') → raised it' = raised it.
Proof.
  revert b it'. induction it as [[k v] it IH| |e]; intros b it'; simpl.
  - destruct k; try by intros [= _ <-].
    destruct (parse_body it) as [e|[b0 it0]]; [done|].
    intros [= _ <-]. by apply (IH b0).
  - by intros [= _ <-].
  - done.
Qed.

Lemma parse_loop_raised it ast e :
  raised it = Some e → ∃ e', parse_loop it ast = inl e'.
Proof.
  remember (remaining it) as n eqn:Hn. revert it Hn ast.
  induction n as [n IH] using lt_wf_ind.
  intros [[k v] it| |e0] Hn ast Hraised; simpl in *.
  - rewrite parse_loop_yield. destruct k.
    + destruct (parse_target _ it ast) as [e0|[ast0 it0]] eqn:Ht; [eauto|].
      apply parse_target_inr in Ht as (_ & _ & b & _ & _ & Hb & _).
      apply (IH (remaining it0)); [|done|].
      * apply parse_body_remaining in Hb. lia.
      * by rewrite (parse_body_raised _ _ _ Hb).
    + apply (IH (remaining it)); [lia|done..].
    + apply (IH (remaining it)); [lia|done..].
  - done.
  - simp parse_loop. eauto.
Qed.

(** ** Continuations that fail *)

(** C9. When a command or target line and all the lines after it end with
    the continuation marker, so that the splice reaches the end of the
    input, the tokenizer ends with an exception (the [StopIteration] of the
    exhausted iterator, which leaves the generator as a [RuntimeError]) and
    yields no token for the unfinished splice: what it yields is what it
    yields on the lines before. The parser does not catch the exception:
    [parse] raises. *)
Theorem continuation_at_end_of_input (pre : list string) (first : string)
    (more : list string) :
  raised (tokenizer pre) = None →
  spliced_line first →
  Forall continued (first :: more) →
  yielded (tokenizer (pre ++ first :: more)) = yielded (tokenizer pre)
  ∧ raised (tokenizer (pre ++ first :: more)) =
    Some (RuntimeError "generator raised StopIteration")
  ∧ ∃ e, parse (pre ++ first :: more) = inl e.
Proof.
  intros Hpre Hkind Hall.
  apply Forall_cons in Hall as [Hfirst Hmore].
  assert (raised (tokenizer (pre ++ first :: more)) =
          Some (RuntimeError "generator raised StopIteration")) as Hraised.
  { rewrite (tokenizer_app _ _ Hpre), raised_prepend.
    rewrite (tokenizer_splice_fails first more StopIteration Hfirst Hkind);
      [done|by apply glue_loop_end]. }
  split; [|split; [done|by eapply parse_loop_raised]].
  rewrite (tokenizer_app _ _ Hpre), yielded_prepend.
  rewrite (tokenizer_splice_fails first more StopIteration Hfirst Hkind).
  - simpl. by rewrite app_nil_r.
  - by apply glue_loop_end.
Qed.

Lemma continuation_at_end_of_input_witness :
  yielded (tokenizer ["CC = gcc"; "all: a \"; "  b \"]) =
  yielded (tokenizer ["CC = gcc"])
  ∧ raised (tokenizer ["CC = gcc"; "all: a \"; "  b \"]) =
    Some (RuntimeError "generator raised StopIteration")
  ∧ ∃ e, parse ["CC = gcc"; "all: a \"; "  b \"] = inl e.
Proof.
  apply (continuation_at_end_of_input ["CC = gcc"] "all: a \" ["  b \"]).
  - reflexivity.
  - split; [intros [H _]; discriminate H | right; split; reflexivity].
  - repeat constructor.
Defined.

(** C10. When a command or target line ends with the continuation marker
    and the splice comes to a line that is empty once trimmed, reading the
    last character of that line fails: the tokenizer ends with an
    [IndexError] and yields no token for the splice; the blank line neither
    ends the splice nor is skipped. [parse] raises as well. *)
Theorem continuation_into_blank_line (pre : list string) (first : string)
    (more : list string) (blank : string) (rest : list string) :
  raised (tokenizer pre) = None →
  spliced_line first →
  Forall continued (first :: more) →
  strip blank = "" →
  yielded (tokenizer (pre ++ first :: more ++ blank :: rest)) =
  yielded (tokenizer pre)
  ∧ raised (tokenizer (pre ++ first :: more ++ blank :: rest)) =
    Some (IndexError "string index out of range")
  ∧ ∃ e, parse (pre ++ first :: more ++ blank :: rest) = inl e.
Proof.
  intros Hpre Hkind Hall Hblank.
  apply Forall_cons in Hall as [Hfirst Hmore].
  assert (tokenizer (first :: more ++ blank :: rest) =
          Raise (IndexError "string index out of range")) as Hfails.
  { rewrite (tokenizer_splice_fails first (more ++ blank :: rest)
               (IndexError "string index out of range") Hfirst Hkind);
      [done|by apply glue_loop_blank]. }
  assert (raised (tokenizer (pre ++ first :: more ++ blank :: rest)) =
          Some (IndexError "string index out of range")) as Hraised.
  { by rewrite (tokenizer_app _ _ Hpre), raised_prepend, Hfails. }
  split; [|split; [done|by eapply parse_loop_raised]].
  rewrite (tokenizer_app _ _ Hpre), yielded_prepend, Hfails.
  simpl. by rewrite app_nil_r.
Qed.

Lemma continuation_into_blank_line_witness :
  yielded (tokenizer ["CC = gcc"; String TAB "cc \"; "  -c \"; "  "; "x: y"]) =
  yielded (tokenizer ["CC = gcc"])
  ∧ raised (tokenizer ["CC = gcc"; String TAB "cc \"; "  -c \"; "  "; "x: y"]) =
    Some (IndexError "string index out of range")
  ∧ ∃ e, parse ["CC = gcc"; String TAB "cc \"; "  -c \"; "  "; "x: y"] = inl e.
Proof.
  apply (continuation_into_blank_line
           ["CC = gcc"] (String TAB "cc \") ["  -c \"] "  " ["x: y"]).
  - reflexivity.
  - split; [intros [H _]; discriminate H | left; reflexivity].
  - repeat constructor.
  - reflexivity.
Defined.

(** ** Target records *)

Lemma dep_names_sorted g : StronglySorted String.le (dep_names g).
Proof.
  unfold dep_names. destruct (truthy g); [|constructor].
  apply (StronglySorted_merge_sort String.le).
Qed.

(** C3. The target token [build: a c b | o2 o1 ## builds it] gives the
    record with the name [build], the required dependencies [a b c], the
    order-only dependencies [o1 o2] and the documentation [builds it]; and
    in every record of every AST that [parse] returns, the two lists of
    dependencies are sorted by the order of the strings. *)
Theorem parse_target_example_and_sorted :
  parse_target (Tokens.target, "build: a c b | o2 o1 ## builds it") Stop [] =
  inr ([ast_target {| target := "build";
                      deps := (["a"; "b"; "c"], ["o1"; "o2"]);
                      docs := "builds it";
                      body := [] |}], Stop)
  ∧ ∀ fd ast d,
      parse fd = inr ast → ast_target d ∈ ast →
      StronglySorted String.le d.(deps).1
      ∧ StronglySorted String.le d.(deps).2.
Proof.
  split; [by vm_compute|].
  intros fd ast d Hparse Hd.
  pose (P := λ item,
    match item with
    | ast_target d =>
        StronglySorted String.le d.(deps).1
        ∧ StronglySorted String.le d.(deps).2
    | _ => True
    end).
  assert (Forall P ast) as Hall.
  { apply (parse_loop_Forall P) with (it := tokenizer fd) (ast := []);
      [|done|done|constructor|exact Hparse].
    intros tok it ast0 ast' it' (g & name & b & _ & _ & _ & ->)%parse_target_inr.
    eexists. split; [done|]. simpl. split; apply dep_names_sorted. }
  rewrite Forall_forall in Hall. exact (Hall _ Hd).
Qed.

Lemma parse_target_example_and_sorted_witness :
  StronglySorted String.le ["x.o"; "y.o"]
  ∧ StronglySorted String.le ["bin"; "obj"].
Proof.
  apply (proj2 parse_target_example_and_sorted
           ["prog: y.o x.o | obj bin"; String TAB "ld"]
           [ast_target {| target := "prog";
                          deps := (["x.o"; "y.o"], ["bin"; "obj"]);
                          docs := "";
                          body := [(Tokens.command, "ld")] |}]
           {| target := "prog";
              deps := (["x.o"; "y.o"], ["bin"; "obj"]);
              docs := "";
              body := [(Tokens.command, "ld")] |}).
  - by vm_compute.
  - apply list_elem_of_singleton. reflexivity.
Defined.

Lemma dep_names_elem x g : x ∈ dep_names g ↔ x ∈ group_words g.
Proof.
  unfold dep_names, group_words, sorted. destruct (truthy g); [|done].
  by rewrite merge_sort_Permutation.
Qed.

(** C5, as the specification states it, fails: the line [t: a | a] gives a
    record with [a] in both lists. *)
Lemma deps_not_disjoint :
  ¬ (∀ fd ast d x,
       parse fd = inr ast → ast_target d ∈ ast →
       x ∈ d.(deps).1 → x ∉ d.(deps).2).
Proof.
  intros H.
  apply (H ["t: a | a"]
           [ast_target {| target := "t"; deps := (["a"], ["a"]);
                          docs := ""; body := [] |}]
           {| target := "t"; deps := (["a"], ["a"]); docs := ""; body := [] |}
           "a").
  - by vm_compute.
  - apply list_elem_of_singleton. reflexivity.
  - apply list_elem_of_singleton. reflexivity.
  - apply list_elem_of_singleton. reflexivity.
Qed.

Lemma dep_names_Permutation g : dep_names g ≡ₚ group_words g.
Proof.
  unfold dep_names, group_words, sorted. destruct (truthy g); [|done].
  apply merge_sort_Permutation.
Qed.

(** C5, amended. The parser does not keep the two lists apart: each is the
    sorted list of the words of its own group of the match (the list has
    the words of the group, each as often as the group has it, and is in
    the order of the strings), so that a name is in both lists exactly
    when it is a word of the second group and a word of the third. *)
Theorem deps_shared_names (tok : token) (it : generator token)
    (ast ast' : list ast_item) (it' : generator token) :
  parse_target tok it ast = inr (ast', it') →
  ∃ g d,
    re_match target_re tok.2 = Some g
    ∧ ast' = (ast ++ [ast_target d])%list
    ∧ d.(deps).1 ≡ₚ group_words (group g 2)
    ∧ StronglySorted String.le d.(deps).1
    ∧ d.(deps).2 ≡ₚ group_words (group g 3)
    ∧ StronglySorted String.le d.(deps).2
    ∧ ∀ x, x ∈ d.(deps).1 ∧ x ∈ d.(deps).2
           ↔ x ∈ group_words (group g 2) ∧ x ∈ group_words (group g 3).
Proof.
  intros (g & name & b & Hg & _ & _ & ->)%parse_target_inr.
  eexists g, _. split; [done|]. split; [done|]. simpl.
  split; [apply dep_names_Permutation|].
  split; [apply dep_names_sorted|].
  split; [apply dep_names_Permutation|].
  split; [apply dep_names_sorted|].
  intros x. by rewrite !dep_names_elem.
Qed.

Lemma deps_shared_names_witness :
  ∃ g d,
    re_match target_re "t: b a | c b" = Some g
    ∧ [ast_target {| target := "t"; deps := (["a"; "b"], ["b"; "c"]);
                     docs := ""; body := [] |}] = ([] ++ [ast_target d])%list
    ∧ d.(deps).1 ≡ₚ group_words (group g 2)
    ∧ StronglySorted String.le d.(deps).1
    ∧ d.(deps).2 ≡ₚ group_words (group g 3)
    ∧ StronglySorted String.le d.(deps).2
    ∧ ∀ x, x ∈ d.(deps).1 ∧ x ∈ d.(deps).2
           ↔ x ∈ group_words (group g 2) ∧ x ∈ group_words (group g 3).
Proof.
  apply (deps_shared_names (Tokens.target, "t: b a | c b") Stop [] _ Stop).
  by vm_compute.
Defined.

(** C8, as the specification states it, fails: the exception of a target
    line that does not match is the same whatever the line and wherever it
    stands, so that nothing can read the position and the text of the line
    off the exception. *)
Lemma malformed_target_error_is_anonymous :
  ¬ ∃ locate : exn → nat * string,
      (∀ e, parse [":a"] = inl e → locate e = (0, ":a"))
      ∧ (∀ e, parse ["CC = gcc"; ":bb"] = inl e → locate e = (1, ":bb")).
Proof.
  intros (locate & H0 & H1).
  specialize (H0 (AttributeError "'NoneType' object has no attribute 'groups'")).
  specialize (H1 (AttributeError "'NoneType' object has no attribute 'groups'")).
  rewrite H0 in H1 by (by vm_compute).
  discriminate H1. by vm_compute.
Qed.

(** The commands that [parse_body] takes are a prefix of the tokens before
    the next target. *)
Lemma parse_body_prepend before v it :
  ∃ cmds rest b,
    before = (cmds ++ rest)%list
    ∧ parse_body (prepend before (Yield (Tokens.target, v) it)) =
      inr (b, prepend rest (Yield (Tokens.target, v) it)).
Proof.
  induction before as [|[k w] before (cmds & rest & b & -> & IH)]; simpl.
  - by exists [], [], [].
  - destruct k.
    + by exists [], ((Tokens.target, w) :: cmds ++ rest)%list, [].
    + rewrite IH.
      by exists ((Tokens.command, w) :: cmds), rest, ((Tokens.command, w) :: b).
    + by exists [], ((Tokens.expression, w) :: cmds ++ rest)%list, [].
Qed.

Lemma parse_loop_malformed before v it ast :
  Forall well_formed before →
  re_match target_re v = None →
  parse_loop (prepend before (Yield (Tokens.target, v) it)) ast =
  inl (AttributeError "'NoneType' object has no attribute 'groups'").
Proof.
  intros Hbefore Hv.
  remember (List.length before) as n eqn:Hn. revert before Hn Hbefore ast.
  induction n as [n IH] using lt_wf_ind.
  intros [|[k w] before] Hn Hbefore ast; simpl in *.
  { rewrite parse_loop_yield. unfold parse_target. simpl. by rewrite Hv. }
  apply Forall_cons in Hbefore as [Hw Hbefore].
  rewrite parse_loop_yield. destruct k.
  - destruct (Hw eq_refl) as [g Hg]. simpl in Hg.
    destruct (parse_body_prepend before v it) as (cmds & rest & b & -> & Hb).
    unfold parse_target, prepend in *. cbn [snd]. rewrite Hg, Hb.
    destruct (target_re_name _ _ Hg) as [name ->].
    apply Forall_app in Hbefore as [_ Hrest].
    apply (IH (List.length rest)); [|done..].
    rewrite length_app in Hn. lia.
  - by apply (IH (List.length before)); [lia|..].
  - by apply (IH (List.length before)); [lia|..].
Qed.

(** C8, amended. When the first target token whose text does not match
    the pattern is reached, [parse] raises the [AttributeError] of
    [None.groups()]: the line is not skipped, and the exception does not
    name it. *)
Theorem malformed_target_raises (fd : list string) (before : list token)
    (v : string) (it : generator token) :
  tokenizer fd = prepend before (Yield (Tokens.target, v) it) →
  Forall well_formed before →
  re_match target_re v = None →
  parse fd = inl (AttributeError "'NoneType' object has no attribute 'groups'").
Proof.
  intros Hfd Hbefore Hv. unfold parse. rewrite Hfd.
  by apply parse_loop_malformed.
Qed.

Lemma malformed_target_raises_witness :
  parse ["all: a"; String TAB "cc"; ": b"; "x: y"] =
  inl (AttributeError "'NoneType' object has no attribute 'groups'").
Proof.
  apply (malformed_target_raises
           ["all: a"; String TAB "cc"; ": b"; "x: y"]
           [(Tokens.target, "all: a"); (Tokens.command, "cc")]
           ": b"
           (Yield (Tokens.target, "x: y") Stop)).
  - by vm_compute.
  - apply Forall_cons. split; [intros _; eexists; by vm_compute|].
    apply Forall_cons. split; [intros H; discriminate H|].
    apply Forall_nil_2.
  - by vm_compute.
Defined.

(** ** The first loop of the graph builder *)

Lemma dd_get_touch k k' d : dd_get (dd_touch k d) k' = dd_get d k'.
Proof.
  unfold dd_get, dd_touch. destruct (d !! k) eqn:Hk; [done|].
  rewrite lookup_insert. case_decide; [subst; by rewrite Hk|done].
Qed.

Lemma dd_touch_is_Some k k' d :
  is_Some (dd_touch k d !! k') ↔ k' = k ∨ is_Some (d !! k').
Proof.
  unfold dd_touch. destruct (d !! k) eqn:Hk.
  - split; [by right|]. intros [->|?]; [by rewrite Hk|done].
  - rewrite lookup_insert. case_decide; subst.
    + split; [by left|by eexists].
    + split; [by right|]. by intros [->|?].
Qed.

Lemma dd_get_add k x k' d t :
  t ∈ dd_get (dd_add k x d) k' ↔ (k' = k ∧ t = x) ∨ t ∈ dd_get d k'.
Proof.
  unfold dd_add. unfold dd_get at 1. rewrite lookup_insert.
  case_decide; subst; simpl; set_solver.
Qed.

Lemma dd_add_is_Some k x k' d :
  is_Some (dd_add k x d !! k') ↔ k' = k ∨ is_Some (d !! k').
Proof.
  unfold dd_add. rewrite lookup_insert. case_decide; subst.
  - split; [by left|by eexists].
  - split; [by right|]. by intros [->|?].
Qed.

Lemma dd_get_add_all x l d k' t :
  t ∈ dd_get (foldl (λ infl k, dd_add k x infl) d l) k'
  ↔ (k' ∈ l ∧ t = x) ∨ t ∈ dd_get d k'.
Proof.
  revert d. induction l as [|k l IH]; intros d; simpl.
  - set_solver.
  - rewrite IH, dd_get_add. set_solver.
Qed.

Lemma dd_add_all_is_Some x l d k' :
  is_Some (foldl (λ infl k, dd_add k x infl) d l !! k')
  ↔ k' ∈ l ∨ is_Some (d !! k').
Proof.
  revert d. induction l as [|k l IH]; intros d; simpl.
  - set_solver.
  - rewrite IH, dd_add_is_Some. set_solver.
Qed.

Lemma dd_get_touch_all l d k' :
  dd_get (foldl (λ infl k, dd_touch k infl) d l) k' = dd_get d k'.
Proof.
  revert d. induction l as [|k l IH]; intros d; simpl; [done|].
  by rewrite IH, dd_get_touch.
Qed.

Lemma dd_touch_all_is_Some l d k' :
  is_Some (foldl (λ infl k, dd_touch k infl) d l !! k')
  ↔ k' ∈ l ∨ is_Some (d !! k').
Proof.
  revert d. induction l as [|k l IH]; intros d; simpl.
  - set_solver.
  - rewrite IH, dd_touch_is_Some. set_solver.
Qed.

(** One round of the first loop, on a target that is not [.PHONY]. *)
Section direct_step.
Context (st : direct) (d : target_dict).
Hypothesis Hgraphed : d.(target) ≠ ".PHONY".

Lemma direct_step_dependencies k :
  dependencies (direct_step st (ast_target d)) !! k =
  if decide (d.(target) = k) then Some d.(deps) else dependencies st !! k.
Proof.
  unfold direct_step. destruct (deps d) as [ds os].
  rewrite bool_decide_eq_false_2 by done. simpl. apply lookup_insert.
Qed.

Lemma direct_step_influences k t :
  t ∈ dd_get (influences (direct_step st (ast_target d))) k
  ↔ (k ∈ d.(deps).1 ∧ t = d.(target)) ∨ t ∈ dd_get (influences st) k.
Proof.
  unfold direct_step. destruct (deps d) as [ds os].
  rewrite bool_decide_eq_false_2 by done. simpl.
  by rewrite dd_get_touch_all, dd_get_add_all, dd_get_touch.
Qed.

Lemma direct_step_keys k :
  is_Some (influences (direct_step st (ast_target d)) !! k)
  ↔ (k = d.(target) ∨ k ∈ d.(deps).1 ∨ k ∈ d.(deps).2)
    ∨ is_Some (influences st !! k).
Proof.
  unfold direct_step. destruct (deps d) as [ds os].
  rewrite bool_decide_eq_false_2 by done. simpl.
  rewrite dd_touch_all_is_Some, dd_add_all_is_Some, dd_touch_is_Some.
  tauto.
Qed.

Lemma direct_step_order_only k :
  k ∈ order_only (direct_step st (ast_target d))
  ↔ k ∈ d.(deps).2 ∨ k ∈ order_only st.
Proof.
  unfold direct_step. destruct (deps d) as [ds os].
  rewrite bool_decide_eq_false_2 by done. simpl. set_solver.
Qed.
End direct_step.

(** A round on anything else leaves the three collections as they are. *)
Lemma direct_step_skip st item :
  (∀ d, item = ast_target d → d.(target) = ".PHONY") →
  direct_step st item = st.
Proof.
  intros H. destruct item as [d| |]; [|done..]. simpl.
  destruct (deps d). by rewrite bool_decide_eq_true_2 by by apply H.
Qed.

Lemma direct_pass_snoc ast item :
  direct_pass (ast ++ [item]) = direct_step (direct_pass ast) item.
Proof. unfold direct_pass. by rewrite foldl_app. Qed.

Lemma graphed_snoc ast item d :
  graphed (ast ++ [item]) d
  ↔ graphed ast d ∨ (item = ast_target d ∧ d.(target) ≠ ".PHONY").
Proof.
  unfold graphed. rewrite elem_of_app, list_elem_of_singleton.
  split; [intros [[?|?] ?]|intros [[? ?]|[? ?]]]; auto.
Qed.

Lemma graphed_snoc_skip ast item d :
  (∀ d, item = ast_target d → d.(target) = ".PHONY") →
  graphed (ast ++ [item]) d ↔ graphed ast d.
Proof.
  intros H. rewrite graphed_snoc. split; [|by left].
  intros [?|[->%H ?]]; done.
Qed.

(** The influences after the first loop: the reverse of the required
    dependencies of the targets of the graph. *)
Lemma direct_pass_influences ast k t :
  t ∈ dd_get (influences (direct_pass ast)) k
  ↔ ∃ d, graphed ast d ∧ d.(target) = t ∧ k ∈ d.(deps).1.
Proof.
  induction ast as [|item ast IH] using rev_ind.
  { split; [set_solver|]. by intros (d & [?%elem_of_nil ?] & _). }
  rewrite direct_pass_snoc.
  destruct item as [d| |];
    [destruct (decide (d.(target) = ".PHONY")) as [Hp|Hp]|..].
  2: { rewrite direct_step_influences, IH by done.
       setoid_rewrite graphed_snoc. split.
       - intros [[? ->]|(d' & ? & ? & ?)]; [exists d|exists d']; eauto.
       - intros (d' & [?|[[= <-] ?]] & <- & ?); [right|left]; eauto. }
  all: rewrite direct_step_skip, IH by (by intros ? [= <-] || done).
  all: by setoid_rewrite graphed_snoc_skip; [|by intros ? [= <-] || done].
Qed.

(** The keys of [influences] after the first loop. *)
Lemma direct_pass_keys ast k :
  is_Some (influences (direct_pass ast) !! k)
  ↔ ∃ d, graphed ast d
         ∧ (k = d.(target) ∨ k ∈ d.(deps).1 ∨ k ∈ d.(deps).2).
Proof.
  induction ast as [|item ast IH] using rev_ind.
  { split; [by intros [? ?]|]. by intros (d & [?%elem_of_nil ?] & _). }
  rewrite direct_pass_snoc.
  destruct item as [d| |];
    [destruct (decide (d.(target) = ".PHONY")) as [Hp|Hp]|..].
  2: { rewrite direct_step_keys, IH by done.
       setoid_rewrite graphed_snoc. split.
       - intros [?|(d' & ? & ?)]; [exists d|exists d']; eauto.
       - intros (d' & [?|[[= <-] ?]] & ?); [right|left]; eauto. }
  all: rewrite direct_step_skip, IH by (by intros ? [= <-] || done).
  all: by setoid_rewrite graphed_snoc_skip; [|by intros ? [= <-] || done].
Qed.

(** The set [order_only] after the first loop. *)
Lemma direct_pass_order_only ast k :
  k ∈ order_only (direct_pass ast)
  ↔ ∃ d, graphed ast d ∧ k ∈ d.(deps).2.
Proof.
  induction ast as [|item ast IH] using rev_ind.
  { split; [set_solver|]. by intros (d & [?%elem_of_nil ?] & _). }
  rewrite direct_pass_snoc.
  destruct item as [d| |];
    [destruct (decide (d.(target) = ".PHONY")) as [Hp|Hp]|..].
  2: { rewrite direct_step_order_only, IH by done.
       setoid_rewrite graphed_snoc. split.
       - intros [?|(d' & ? & ?)]; [exists d|exists d']; eauto.
       - intros (d' & [?|[[= <-] ?]] & ?); [right|left]; eauto. }
  all: rewrite direct_step_skip, IH by (by intros ? [= <-] || done).
  all: by setoid_rewrite graphed_snoc_skip; [|by intros ? [= <-] || done].
Qed.

(** The keys of [dependencies] after the first loop. *)
Lemma direct_pass_dependencies ast k :
  is_Some (dependencies (direct_pass ast) !! k)
  ↔ ∃ d, graphed ast d ∧ d.(target) = k.
Proof.
  induction ast as [|item ast IH] using rev_ind.
  { split; [by intros [? ?]|]. by intros (d & [?%elem_of_nil ?] & _). }
  rewrite direct_pass_snoc.
  destruct item as [d| |];
    [destruct (decide (d.(target) = ".PHONY")) as [Hp|Hp]|..].
  2: { rewrite direct_step_dependencies by done.
       setoid_rewrite graphed_snoc. case_decide as Hk.
       - split; [|by eexists]. intros _. exists d. eauto.
       - rewrite IH. split.
         + intros (d' & ? & ?). exists d'. eauto.
         + intros (d' & [?|[[= <-] ?]] & ?); [eauto|done]. }
  all: rewrite direct_step_skip, IH by (by intros ? [= <-] || done).
  all: by setoid_rewrite graphed_snoc_skip; [|by intros ? [= <-] || done].
Qed.

Lemma direct_pass_filter ast :
  direct_pass ast = direct_pass (List.filter not_phony ast).
Proof.
  unfold direct_pass. generalize direct_empty.
  induction ast as [|item ast IH]; intros st; simpl; [done|].
  destruct (not_phony item) eqn:Hitem; simpl; [apply IH|].
  rewrite direct_step_skip; [apply IH|].
  intros d ->. simpl in Hitem.
  by apply negb_false_iff, bool_decide_eq_true in Hitem.
Qed.

(** C6. A target named [.PHONY] stays out of the graph: [.PHONY] is never
    a key of [dependencies], and the four results are the ones of the AST
    without its [.PHONY] targets, so that what such a target lists adds
    nothing to [influences], [order_only] and [indirect_influences]. For
    the line [.PHONY: clean test] the four results are empty. *)
Theorem phony_is_excluded (limit : nat) (ast : list ast_item) :
  dependencies (direct_pass ast) !! ".PHONY" = None
  ∧ get_dependencies_influences limit ast =
    get_dependencies_influences limit (List.filter not_phony ast)
  ∧ parse [".PHONY: clean test"] =
    inr [ast_target {| target := ".PHONY"; deps := (["clean"; "test"], []);
                       docs := ""; body := [] |}]
  ∧ get_dependencies_influences limit
      [ast_target {| target := ".PHONY"; deps := (["clean"; "test"], []);
                     docs := ""; body := [] |}] =
    Some {| g_dependencies := ∅; g_influences := ∅; g_order_only := ∅;
            g_indirect_influences := ∅ |}.
Proof.
  split; [|split; [|split]].
  - apply eq_None_not_Some.
    intros (d & [_ Hd] & Ht)%direct_pass_dependencies. done.
  - unfold get_dependencies_influences. by rewrite <- direct_pass_filter.
  - by vm_compute.
  - unfold get_dependencies_influences.
    rewrite direct_pass_filter. simpl.
    unfold indirect_pass. by rewrite map_to_list_empty.
Qed.

(** C7, as the specification states it, fails: the order-only dependency
    [b] of the target of [.PHONY: | b] has no entry in [influences] and is
    not in [order_only]. *)
Lemma phony_order_only_is_dropped :
  ¬ (∀ ast d k,
       ast_target d ∈ ast → k ∈ d.(deps).2 →
       is_Some (influences (direct_pass ast) !! k)
       ∧ k ∈ order_only (direct_pass ast)).
Proof.
  intros H.
  destruct (H [ast_target {| target := ".PHONY"; deps := ([], ["b"]);
                             docs := ""; body := [] |}]
              {| target := ".PHONY"; deps := ([], ["b"]);
                 docs := ""; body := [] |} "b") as [[s Hs] _].
  - apply list_elem_of_singleton. reflexivity.
  - apply list_elem_of_singleton. reflexivity.
  - vm_compute in Hs. discriminate Hs.
Qed.

(** C7, amended: for the targets other than [.PHONY]. Every order-only
    dependency of such a target is a key of [influences]; the members of
    [influences[k]] are exactly the targets that have [k] among their
    required dependencies, so that an order-only dependency adds no
    member; and [order_only] is the union of the order-only dependencies
    of these targets. *)
Theorem order_only_in_graph (ast : list ast_item) :
  (∀ d k, graphed ast d → k ∈ d.(deps).2 →
          is_Some (influences (direct_pass ast) !! k))
  ∧ (∀ k t, t ∈ dd_get (influences (direct_pass ast)) k
            ↔ ∃ d, graphed ast d ∧ d.(target) = t ∧ k ∈ d.(deps).1)
  ∧ (∀ k, k ∈ order_only (direct_pass ast)
          ↔ ∃ d, graphed ast d ∧ k ∈ d.(deps).2).
Proof.
  split; [|split].
  - intros d k Hd Hk. apply direct_pass_keys. exists d. auto.
  - apply direct_pass_influences.
  - apply direct_pass_order_only.
Qed.

Lemma order_only_in_graph_witness :
  is_Some (influences (direct_pass
    [ast_target {| target := "obj/x.o"; deps := (["x.c"], ["obj"]);
                   docs := ""; body := [] |}]) !! "obj").
Proof.
  apply (proj1 (order_only_in_graph
    [ast_target {| target := "obj/x.o"; deps := (["x.c"], ["obj"]);
                   docs := ""; body := [] |}])
    {| target := "obj/x.o"; deps := (["x.c"], ["obj"]);
       docs := ""; body := [] |}).
  - split; [apply list_elem_of_singleton; reflexivity | discriminate].
  - apply list_elem_of_singleton. reflexivity.
Defined.

(** ** Loops that can fail *)

Lemma for_each_is_Some {S A : Type} (f : S → A → option S) l s :
  (∀ s a, a ∈ l → is_Some (f s a)) → is_Some (for_each f s l).
Proof.
  revert s. induction l as [|a l IH]; intros s Hf; simpl; [by eexists|].
  destruct (Hf s a) as [s' ->]; [by left|].
  apply IH. intros s0 a0 Ha0. apply Hf. by right.
Qed.

Lemma for_each_None {S A : Type} (f : S → A → option S) l s a :
  a ∈ l → (∀ s, f s a = None) → for_each f s l = None.
Proof.
  intros Ha Hf. revert s.
  induction l as [|b l IH]; intros s; [by apply elem_of_nil in Ha|].
  simpl. destruct (f s b) as [s'|] eqn:Hb; [|done].
  apply elem_of_cons in Ha as [->|Ha]; [by rewrite Hf in Hb|by apply IH].
Qed.

Lemma for_each_mono {S A : Type} (f g : S → A → option S) l s r :
  (∀ s a s', f s a = Some s' → g s a = Some s') →
  for_each f s l = Some r → for_each g s l = Some r.
Proof.
  intros Hfg. revert s. induction l as [|a l IH]; intros s; simpl; [done|].
  destruct (f s a) as [s'|] eqn:Hf; [|done].
  rewrite (Hfg _ _ _ Hf). apply IH.
Qed.

(** An invariant of the loop, in the elements that it went through. *)
Lemma for_each_inv {S A : Type} (f : S → A → option S)
    (P : list A → S → Prop) l s r :
  P [] s →
  (∀ seen a s s',
     P seen s → a ∈ l → f s a = Some s' → P (seen ++ [a])%list s') →
  for_each f s l = Some r → P l r.
Proof.
  intros Hnil Hstep.
  enough (∀ seen l' s, P seen s → (∀ a, a ∈ l' → a ∈ l) →
            for_each f s l' = Some r → P (seen ++ l')%list r) as H.
  { intros Hr. by apply (H [] l s). }
  intros seen l'. revert seen.
  induction l' as [|a l' IH]; intros seen s0 Hseen Hsub; simpl.
  - intros [= <-]. by rewrite app_nil_r.
  - destruct (f s0 a) as [s'|] eqn:Hf; [|done]. intros Hr.
    rewrite (cons_middle a seen l'), app_assoc.
    apply (IH _ s'); [|by intros; apply Hsub; right|done].
    apply (Hstep _ _ s0); [done|by apply Hsub; left|done].
Qed.

(** ** The second loop of the graph builder *)

Section indirect.
Context (infl : gmap string (gset string)).

Lemma edge_is_Some a b : edge infl a b → is_Some (infl !! a).
Proof.
  unfold edge, dd_get. destruct (infl !! a); [by eexists|set_solver].
Qed.

Lemma recurse_S limit o t ind :
  recurse_indirect_influences (S limit) infl o t ind =
  for_each (λ ind t', recurse_indirect_influences limit infl o t' ind)
    (dd_update o (dd_get infl t) ind) (elements (dd_get infl t)).
Proof. done. Qed.

(** A larger limit does not change a result. *)
Lemma recurse_mono (limit limit' : nat) o t ind r :
  (limit ≤ limit')%nat →
  recurse_indirect_influences limit infl o t ind = Some r →
  recurse_indirect_influences limit' infl o t ind = Some r.
Proof.
  revert limit' t ind r.
  induction limit as [|limit IH]; intros limit' t ind r Hle; [done|].
  destruct limit' as [|limit']; [lia|].
  rewrite !recurse_S. apply for_each_mono.
  intros s a s'. apply IH. lia.
Qed.

Lemma indirect_pass_mono (limit limit' : nat) r :
  (limit ≤ limit')%nat →
  indirect_pass limit infl = Some r → indirect_pass limit' infl = Some r.
Proof.
  intros Hle. unfold indirect_pass. apply for_each_mono.
  intros s [o targets] s'. apply for_each_mono.
  intros s0 a s0'. by apply recurse_mono.
Qed.

(** Without a cycle the recursion returns: the targets on the way to
    [t] are distinct keys of [influences], so that there are no more of
    them than keys. *)
Lemma recurse_terminates limit path o t ind :
  acyclic infl →
  NoDup path →
  (∀ a, a ∈ path → tc (edge infl) a t) →
  (size infl < List.length path + limit)%nat →
  is_Some (recurse_indirect_influences limit infl o t ind).
Proof.
  intros Hacyclic. revert path t ind.
  induction limit as [|limit IH]; intros path t ind Hnodup Hpath Hsize.
  - exfalso.
    assert (path ⊆+ elements (dom infl)) as Hsub%submseteq_length.
    { apply NoDup_submseteq; [done|]. intros a Ha%Hpath.
      apply elem_of_elements, elem_of_dom.
      inversion Ha; subst; by eapply edge_is_Some. }
    change (List.length (elements (dom infl))) with (size (dom infl)) in Hsub.
    rewrite size_dom in Hsub. lia.
  - rewrite recurse_S. apply for_each_is_Some.
    intros s t' Ht'%elem_of_elements.
    apply (IH (t :: path)).
    + apply NoDup_cons. split; [|done].
      intros Ht%Hpath. by apply (Hacyclic t).
    + intros a [->|Ha%Hpath]%elem_of_cons; [by apply tc_once|].
      by eapply tc_r.
    + simpl. lia.
Qed.

(** On a cycle the recursion runs into every limit. *)
Lemma tc_cycle_step x :
  tc (edge infl) x x → ∃ y, edge infl x y ∧ tc (edge infl) y y.
Proof.
  intros H. inversion H as [? ? Hxx|? y ? Hxy Hyx]; subst.
  - by exists x.
  - exists y. split; [done|]. by eapply tc_r.
Qed.

Lemma recurse_cycle limit o x ind :
  tc (edge infl) x x → recurse_indirect_influences limit infl o x ind = None.
Proof.
  revert x ind. induction limit as [|limit IH]; intros x ind Hx; [done|].
  destruct (tc_cycle_step x Hx) as (y & Hxy & Hy).
  rewrite recurse_S. apply (for_each_None _ _ _ y).
  - by apply elem_of_elements.
  - intros s. by apply IH.
Qed.

Lemma indirect_pass_cycle limit x :
  tc (edge infl) x x → indirect_pass limit infl = None.
Proof.
  intros (y & Hxy & Hy)%tc_cycle_step.
  destruct (edge_is_Some _ _ Hxy) as [targets Hx].
  unfold indirect_pass. apply (for_each_None _ _ _ (x, targets)).
  - by apply elem_of_map_to_list.
  - intros s. apply (for_each_None _ _ _ y).
    + apply elem_of_elements. unfold edge, dd_get in Hxy.
      by rewrite Hx in Hxy.
    + intros s0. by apply recurse_cycle.
Qed.

Lemma indirect_pass_terminates :
  acyclic infl → is_Some (indirect_pass (S (size infl)) infl).
Proof.
  intros Hacyclic. unfold indirect_pass. apply for_each_is_Some.
  intros s [o targets] _. apply for_each_is_Some.
  intros s0 t _.
  apply (recurse_terminates _ []); [done|constructor| |simpl; lia].
  by intros a ?%elem_of_nil.
Qed.
End indirect.

Lemma dd_get_update o s d k y :
  y ∈ dd_get (dd_update o s d) k ↔ y ∈ dd_get d k ∨ (k = o ∧ y ∈ s).
Proof.
  unfold dd_update. unfold dd_get at 1. rewrite lookup_insert.
  case_decide; subst; simpl; set_solver.
Qed.

Section closure.
Context (infl : gmap string (gset string)).

Lemma beyond_unfold t y :
  beyond infl t y ↔ edge infl t y ∨ ∃ t', edge infl t t' ∧ beyond infl t' y.
Proof.
  unfold beyond. split.
  - intros (x & Hx & Hy).
    apply rtc_inv in Hx as [<-|(t' & Ht' & Hx)]; [by left|].
    right. exists t'. eauto.
  - intros [Hy|(t' & Ht' & x & Hx & Hy)].
    + exists t. split; [apply rtc_refl|done].
    + exists x. split; [by eapply rtc_l|done].
Qed.

(** What one call of the recursion adds to [indirect_influences]. *)
Lemma recurse_spec limit o t ind r :
  recurse_indirect_influences limit infl o t ind = Some r →
  ∀ k y, y ∈ dd_get r k ↔ y ∈ dd_get ind k ∨ (k = o ∧ beyond infl t y).
Proof.
  revert t ind r. induction limit as [|limit IH]; intros t ind r; [done|].
  rewrite recurse_S. intros Hr.
  pose (P := λ (seen : list string) (s : gmap string (gset string)),
    ∀ k y, y ∈ dd_get s k
           ↔ y ∈ dd_get ind k
             ∨ (k = o ∧ (edge infl t y
                         ∨ ∃ t', t' ∈ seen ∧ edge infl t t'
                                 ∧ beyond infl t' y))).
  assert (P (elements (dd_get infl t)) r) as HP.
  { apply (for_each_inv _ P _ _ _) with (3 := Hr).
    - intros k y. rewrite dd_get_update. unfold edge.
      split; [intros [?|[? ?]]; auto|].
      intros [?|[? [?|(t' & ?%elem_of_nil & _)]]]; auto. done.
    - intros seen a s s' Hs Ha%elem_of_elements Hs' k y.
      rewrite (IH _ _ _ Hs' k y), (Hs k y).
      setoid_rewrite elem_of_app. setoid_rewrite list_elem_of_singleton.
      naive_solver. }
  intros k y. rewrite (HP k y), beyond_unfold.
  setoid_rewrite elem_of_elements. unfold edge. naive_solver.
Qed.

(** What the second loop computes: [indirect_influences[o]] holds the
    direct influences of the targets that [o] influences, directly or
    not. *)
Lemma indirect_pass_spec limit r :
  indirect_pass limit infl = Some r →
  ∀ o y, y ∈ dd_get r o ↔ ∃ t, edge infl o t ∧ beyond infl t y.
Proof.
  unfold indirect_pass. intros Hr.
  pose (P := λ (seen : list (string * gset string))
               (s : gmap string (gset string)),
    ∀ o y, y ∈ dd_get s o
           ↔ o ∈ seen.*1 ∧ ∃ t, edge infl o t ∧ beyond infl t y).
  assert (P (map_to_list infl) r) as HP.
  { apply (for_each_inv _ P _ _ _) with (3 := Hr).
    - intros o y. unfold dd_get. rewrite lookup_empty. simpl.
      split; [set_solver|]. by intros [?%elem_of_nil _].
    - intros seen [o' targets] s s' Hs Ho'%elem_of_map_to_list Hs' o y.
      pose (Q := λ (seen' : list string) (s0 : gmap string (gset string)),
        ∀ k y, y ∈ dd_get s0 k
               ↔ y ∈ dd_get s k
                 ∨ (k = o' ∧ ∃ t, t ∈ seen' ∧ beyond infl t y)).
      assert (Q (elements targets) s') as HQ.
      { apply (for_each_inv _ Q _ _ _) with (3 := Hs').
        - intros k z. split; [by left|].
          by intros [?|[_ (t & ?%elem_of_nil & _)]].
        - intros seen' a s0 s0' Hs0 _ Hs0' k z.
          rewrite (recurse_spec _ _ _ _ _ Hs0' k z), (Hs0 k z).
          setoid_rewrite elem_of_app. setoid_rewrite list_elem_of_singleton.
          naive_solver. }
      rewrite (HQ o y), (Hs o y), fmap_app, elem_of_app. simpl.
      rewrite list_elem_of_singleton.
      assert (∀ t, t ∈ elements targets ↔ edge infl o' t) as Hedge.
      { intros t. unfold edge, dd_get. rewrite Ho'. simpl.
        apply elem_of_elements. }
      setoid_rewrite Hedge. naive_solver. }
  intros o y. rewrite (HP o y). split; [by intros [_ ?]|].
  intros (t & Ht & Hy). split; [|eauto].
  destruct (edge_is_Some _ _ _ Ht) as [targets Ho].
  apply list_elem_of_fmap. exists (o, targets). split; [done|].
  by apply elem_of_map_to_list.
Qed.
End closure.

(** ** The graph builder as a whole *)

(** Every member of a set of [influences] is a key of [influences]: the
    recursion reads [influences[recurse_target]] at keys that exist, and
    the dictionary keeps its size while the second loop goes over it. *)
Lemma direct_pass_closed ast k t :
  t ∈ dd_get (influences (direct_pass ast)) k →
  is_Some (influences (direct_pass ast) !! t).
Proof.
  intros (d & Hd & <- & _)%direct_pass_influences.
  apply direct_pass_keys. exists d. auto.
Qed.

Lemma get_dependencies_influences_Some limit ast g :
  get_dependencies_influences limit ast = Some g
  ↔ ∃ ind,
      indirect_pass limit (influences (direct_pass ast)) = Some ind
      ∧ g = {| g_dependencies := dependencies (direct_pass ast);
               g_influences := influences (direct_pass ast);
               g_order_only := order_only (direct_pass ast);
               g_indirect_influences := ind |}.
Proof.
  unfold get_dependencies_influences.
  destruct (indirect_pass _ _) as [ind|]; simpl.
  - split; [intros [= <-]; eauto|]. by intros (? & [= <-] & ->).
  - split; [done|]. by intros (? & ? & _).
Qed.

Lemma get_dependencies_influences_mono (limit limit' : nat) ast g :
  (limit ≤ limit')%nat →
  get_dependencies_influences limit ast = Some g →
  get_dependencies_influences limit' ast = Some g.
Proof.
  intros Hle (ind & Hind & ->)%get_dependencies_influences_Some.
  apply get_dependencies_influences_Some. exists ind. split; [|done].
  by eapply indirect_pass_mono.
Qed.

(** C2, as the specification states it, fails: the graph builder returns
    on this AST, and [indirect_influences["C"]] is never the set of [A] and
    [B]. *)
Lemma chain_indirect_is_not_both :
  parse ["A: B"; "B: C"; "C:"] = inr chain_ast
  ∧ is_Some (get_dependencies_influences 1000 chain_ast)
  ∧ ∀ limit g,
      get_dependencies_influences limit chain_ast = Some g →
      g_indirect_influences g !! "C" ≠ Some {["A"; "B"]}.
Proof.
  split; [by vm_compute|]. split; [eexists; by vm_compute|].
  intros limit g Hg HC.
  apply (get_dependencies_influences_mono _ (limit + 2)) in Hg; [|lia].
  assert (∃ g0, get_dependencies_influences 2 chain_ast = Some g0
                ∧ g_indirect_influences g0 !! "C" = Some {["A"]})
    as (g0 & Hg0 & HC0).
  { eexists. split; by vm_compute. }
  apply (get_dependencies_influences_mono _ (limit + 2)) in Hg0; [|lia].
  rewrite Hg in Hg0. injection Hg0 as ->.
  assert (({["A"; "B"]} : gset string) = {["A"]}) as Heq by congruence.
  assert ("B" ∈ ({["A"]} : gset string)) as HB by (rewrite <- Heq; set_solver).
  set_solver.
Qed.

(** C2, amended. For the lines [A: B], [B: C], [C:] the graph builder
    returns as soon as the recursion may be two calls deep, with
    [influences["C"]] the set of [B], [influences["B"]] the set of [A],
    and [indirect_influences["C"]] the set of [A] alone: the direct
    influence [B] of [C] is not among its indirect influences. *)
Theorem chain_influences :
  parse ["A: B"; "B: C"; "C:"] = inr chain_ast
  ∧ ∀ limit : nat,
      (2 ≤ limit)%nat →
      ∃ g, get_dependencies_influences limit chain_ast = Some g
           ∧ g_influences g !! "C" = Some {["B"]}
           ∧ g_influences g !! "B" = Some {["A"]}
           ∧ g_indirect_influences g !! "C" = Some {["A"]}.
Proof.
  split; [by vm_compute|].
  intros limit Hlimit.
  assert (∃ g, get_dependencies_influences 2 chain_ast = Some g
               ∧ g_influences g !! "C" = Some {["B"]}
               ∧ g_influences g !! "B" = Some {["A"]}
               ∧ g_indirect_influences g !! "C" = Some {["A"]})
    as (g & Hg & H).
  { eexists. repeat split; by vm_compute. }
  exists g. split; [|done].
  by apply (get_dependencies_influences_mono 2).
Qed.

Lemma chain_influences_witness :
  ∃ g, get_dependencies_influences 1000 chain_ast = Some g
       ∧ g_influences g !! "C" = Some {["B"]}
       ∧ g_influences g !! "B" = Some {["A"]}
       ∧ g_indirect_influences g !! "C" = Some {["A"]}.
Proof.
  apply (proj2 chain_influences 1000). lia.
Defined.

(** C1, as the specification states it, fails: on the two targets that
    depend on each other the recursion runs into every limit, and the
    graph builder does not return. *)
Lemma cycle_never_returns :
  parse ["A: B"; "B: A"] = inr cycle_ast
  ∧ ∀ limit, get_dependencies_influences limit cycle_ast = None.
Proof.
  split; [by vm_compute|].
  intros limit. unfold get_dependencies_influences.
  rewrite (indirect_pass_cycle _ limit "A"); [done|].
  apply (tc_l _ _ "B"); [|apply tc_once].
  - apply direct_pass_influences.
    exists {| target := "B"; deps := (["A"], []); docs := ""; body := [] |}.
    split; [split|split]; [|done|done|apply list_elem_of_here].
    apply list_elem_of_further, list_elem_of_here.
  - apply direct_pass_influences.
    exists {| target := "A"; deps := (["B"], []); docs := ""; body := [] |}.
    split; [split|split]; [|done|done|apply list_elem_of_here].
    apply list_elem_of_here.
Qed.

(** C1, amended. The recursion has no set of visited targets: the graph
    builder returns, under some limit on the depth of the recursion,
    exactly when the influence graph has no cycle. When it returns,
    [indirect_influences[o]] holds the direct influences of the targets
    that [o] influences, directly or not: the targets that are two or more
    steps of influence away from [o]. *)
Theorem indirect_influences_of_acyclic_graph (ast : list ast_item) :
  ((∃ limit, is_Some (get_dependencies_influences limit ast))
   ↔ acyclic (influences (direct_pass ast)))
  ∧ ∀ limit g,
      get_dependencies_influences limit ast = Some g →
      ∀ o y, y ∈ dd_get (g_indirect_influences g) o
             ↔ ∃ t, edge (influences (direct_pass ast)) o t
                    ∧ beyond (influences (direct_pass ast)) t y.
Proof.
  split; [split|].
  - intros (limit & g & (ind & Hind & _)%get_dependencies_influences_Some).
    intros x Hx. by rewrite (indirect_pass_cycle _ limit x Hx) in Hind.
  - intros [ind Hind]%indirect_pass_terminates.
    eexists. eexists. apply get_dependencies_influences_Some. eauto.
  - intros limit g (ind & Hind & ->)%get_dependencies_influences_Some.
    simpl. by apply indirect_pass_spec with (limit := limit).
Qed.

Lemma indirect_influences_of_acyclic_graph_witness :
  ∃ g, get_dependencies_influences 2 chain_ast = Some g
       ∧ ∀ o y, y ∈ dd_get (g_indirect_influences g) o
                ↔ ∃ t, edge (influences (direct_pass chain_ast)) o t
                       ∧ beyond (influences (direct_pass chain_ast)) t y.
Proof.
  eexists. split; [by vm_compute|].
  apply (proj2 (indirect_influences_of_acyclic_graph chain_ast) 2).
  by vm_compute.
Defined.

(** * Further properties *)

(** ** Splices that succeed *)

Lemma glue_loop_chain lines cur cont last rest :
  Forall continued (cur :: cont) → strip last ≠ "" → ¬ continued last →
  glue_loop lines (strip cur) (cont ++ last :: rest) =
  inr (join " " (lines ++ (piece <$> cur :: cont ++ [last]))%list, rest).
Proof.
  intros Hall Hlast Hnc. revert lines cur Hall.
  induction cont as [|next cont IH]; intros lines cur Hall;
    apply Forall_cons in Hall as [Hcur Hcont]; simpl; rewrite Hcur; simpl.
  - destruct (last_char (strip last)) as [c|] eqn:Hc.
    + rewrite (glue_loop_stop _ _ _ c Hc) by (by intros ->).
      by rewrite <- app_assoc.
    + by apply last_char_None in Hc.
  - rewrite (IH _ next Hcont). by rewrite <- app_assoc.
Qed.

(** X1. A command or target line that is not continued gives one token,
    whose text is the trimmed line, and the tokenizer goes on with the next
    line. *)
Theorem tokenizer_single_line (line : string) (it : list string) :
  strip line ≠ "" → spliced_line line → ¬ continued line →
  tokenizer (line :: it) = Yield (kind_of line, strip line) (tokenizer it).
Proof.
  intros Hb Hs Hnc. apply tokenizer_splice_ok; [done..|].
  unfold glue_multiline.
  destruct (last_char (strip line)) as [c|] eqn:Hc.
  - rewrite (glue_loop_stop _ _ _ c Hc) by (by intros ->). simpl.
    f_equal. f_equal. apply (piece_not_continued line Hnc).
  - by apply last_char_None in Hc.
Qed.

Lemma tokenizer_single_line_witness :
  tokenizer ["  all : a b  "; "X = 1"] =
  Yield (Tokens.target, "all : a b") (tokenizer ["X = 1"]).
Proof.
  apply (tokenizer_single_line "  all : a b  " ["X = 1"]).
  - discriminate.
  - split; [intros [H _]; discriminate H | right; split; reflexivity].
  - discriminate.
Defined.

(** X2. A command or target line that is continued over the lines that
    follow gives one token: the pieces of the lines of the splice (each
    trimmed, without its continuation marker, trimmed again) joined by one
    space. The lines of the splice give no token of their own: the
    tokenizer goes on after the line that ends the splice. *)
Theorem tokenizer_splice (first : string) (more : list string)
    (last : string) (rest : list string) :
  spliced_line first →
  Forall continued (first :: more) →
  strip last ≠ "" → ¬ continued last →
  tokenizer (first :: more ++ last :: rest) =
  Yield (kind_of first, join " " (piece <$> first :: more ++ [last]))
        (tokenizer rest).
Proof.
  intros Hs Hall Hlast Hnc. apply tokenizer_splice_ok; [|done|].
  - apply Forall_cons in Hall as [Hfirst _]. unfold continued in Hfirst.
    intros E. by rewrite E in Hfirst.
  - unfold glue_multiline. by rewrite (glue_loop_chain [] first more last rest).
Qed.

Lemma tokenizer_splice_witness :
  tokenizer ["all: a \"; "  b \"; " c "; "X = 1"] =
  Yield (Tokens.target, "all: a b c") (tokenizer ["X = 1"]).
Proof.
  apply (tokenizer_splice "all: a \" ["  b \"] " c " ["X = 1"]).
  - split; [intros [H _]; discriminate H | right; split; reflexivity].
  - repeat constructor.
  - discriminate.
  - discriminate.
Defined.

(** ** The tokenizer, by induction on its rounds *)

Lemma glue_loop_suffix lines strip_line it v it' :
  glue_loop lines strip_line it = inr (v, it') →
  ∃ used, it = (used ++ it')%list.
Proof.
  revert lines strip_line.
  induction it as [|line it IH]; intros lines strip_line; simpl;
    destruct (last_char strip_line) as [c|]; try discriminate;
    destruct (Ascii.eqb c BACKSLASH); try discriminate.
  - intros [= _ <-]. by exists [].
  - intros (used & ->)%IH. by exists (line :: used).
  - intros [= _ <-]. by exists [].
Qed.

(** Induction on the rounds of the loop of the tokenizer. *)
Lemma tokenizer_rounds (P : list string → generator token → Prop) :
  P [] Stop →
  (∀ line it,
     is_blank line = true ∨ is_comment line = true →
     P it (tokenizer it) → P (line :: it) (tokenizer it)) →
  (∀ line it e,
     glue_multiline line it = inl e → P (line :: it) (Raise (escape e))) →
  (∀ line it v used it',
     glue_multiline line it = inr (v, it') → it = (used ++ it')%list →
     P it' (tokenizer it') →
     P (line :: it) (Yield (kind_of line, v) (tokenizer it'))) →
  (∀ line it,
     P it (tokenizer it) →
     P (line :: it)
       (Yield (Tokens.expression, strip_chars (" ;" ++ String TAB "") line)
              (tokenizer it))) →
  ∀ fd, P fd (tokenizer fd).
Proof.
  intros Hnil Hskip Hraise Hsplice Hexpr fd.
  remember (List.length fd) as n eqn:Hn. revert fd Hn.
  induction n as [n IH] using lt_wf_ind. intros [|line it] Hn.
  { by simp tokenizer. }
  simpl in Hn. subst n.
  assert (∀ kind, kind = kind_of line →
                  P (line :: it) (spliced kind line it)) as Hspliced.
  { intros kind ->. unfold spliced.
    destruct (glue_multiline line it) as [e|[v it']] eqn:Hglue;
      [by apply Hraise|].
    destruct (glue_loop_suffix _ _ _ _ _ Hglue) as [used Hused].
    apply (Hsplice _ _ _ used); [done..|].
    apply (IH (List.length it')); [|done].
    rewrite Hused, length_app. lia. }
  rewrite tokenizer_cons.
  destruct (is_blank line) eqn:Hb.
  { apply Hskip; [by left|]. apply (IH (List.length it)); [lia|done]. }
  destruct (is_comment line) eqn:Hc.
  { apply Hskip; [by right|]. apply (IH (List.length it)); [lia|done]. }
  destruct (starts_with_tab line) eqn:Ht.
  { apply Hspliced. unfold kind_of. by rewrite Ht. }
  destruct (is_rule line) eqn:Hr.
  { apply Hspliced. unfold kind_of. by rewrite Ht. }
  apply Hexpr. apply (IH (List.length it)); [lia|done].
Qed.

(** X3. Lines that are empty once trimmed and comment lines give nothing:
    on an input of such lines alone (the empty input among them) the
    tokenizer yields no token and raises nothing, and [parse] returns the
    empty AST. *)
Theorem tokenizer_skipped_lines (fd : list string) :
  Forall skipped fd → tokenizer fd = Stop ∧ parse fd = inr [].
Proof.
  intros Hall.
  assert (tokenizer fd = Stop) as Htok.
  { induction Hall as [|line fd Hline _ IH]; [by simp tokenizer|].
    rewrite tokenizer_cons. destruct Hline as [Hb|Hc].
    - apply is_blank_spec in Hb. by rewrite Hb.
    - apply is_comment_spec in Hc. rewrite Hc. by destruct (is_blank line). }
  split; [done|]. unfold parse. rewrite Htok. by simp parse_loop.
Qed.

Lemma tokenizer_skipped_lines_witness :
  tokenizer ["# build rules"; "   "; String TAB "# later"] = Stop
  ∧ parse ["# build rules"; "   "; String TAB "# later"] = inr [].
Proof.
  apply (tokenizer_skipped_lines ["# build rules"; "   "; String TAB "# later"]).
  apply Forall_cons. split.
  { right. split; [reflexivity | discriminate]. }
  apply Forall_cons. split.
  { left. reflexivity. }
  apply Forall_cons. split.
  { right. split; [reflexivity | discriminate]. }
  apply Forall_nil_2.
Defined.

(** X4. The tokenizer yields at most one token for each line of the
    input. *)
Theorem tokenizer_at_most_one_token_per_line (fd : list string) :
  (List.length (yielded (tokenizer fd)) ≤ List.length fd)%nat.
Proof.
  apply (tokenizer_rounds
           (λ fd g, (List.length (yielded g) ≤ List.length fd)%nat));
    simpl; intros; subst; rewrite ?length_app; lia.
Qed.

Lemma tokenizer_raised fd e :
  raised (tokenizer fd) = Some e →
  e = RuntimeError "generator raised StopIteration"
  ∨ e = IndexError "string index out of range".
Proof.
  revert e.
  apply (tokenizer_rounds
           (λ fd g, ∀ e, raised g = Some e →
              e = RuntimeError "generator raised StopIteration"
              ∨ e = IndexError "string index out of range"));
    simpl; try done.
  intros line it e0 [->| ->]%glue_loop_inl e [= <-]; auto.
Qed.

(** X5. The tokenizer raises two exceptions and no other: the
    [RuntimeError] of a splice that runs into the end of the input, and
    the [IndexError] of a splice that runs into a line that is empty once
    trimmed. *)
Theorem tokenizer_exceptions (fd : list string) (e : exn) :
  raised (tokenizer fd) = Some e →
  e = RuntimeError "generator raised StopIteration"
  ∨ e = IndexError "string index out of range".
Proof. apply tokenizer_raised. Qed.

Lemma tokenizer_exceptions_witness :
  RuntimeError "generator raised StopIteration" =
    RuntimeError "generator raised StopIteration"
  ∨ RuntimeError "generator raised StopIteration" =
    IndexError "string index out of range".
Proof.
  apply (tokenizer_exceptions ["all: a \"]). reflexivity.
Defined.

(** X6. When the tokenizer returns on the first part of an input, the
    tokens of the whole input are the tokens of that part followed by the
    tokens of the rest, and the whole ends as the rest ends: no splice
    reaches across the boundary. *)
Theorem tokenizer_concat (pre rest : list string) :
  raised (tokenizer pre) = None →
  yielded (tokenizer (pre ++ rest)) =
    (yielded (tokenizer pre) ++ yielded (tokenizer rest))%list
  ∧ raised (tokenizer (pre ++ rest)) = raised (tokenizer rest).
Proof.
  intros Hpre. by rewrite (tokenizer_app _ _ Hpre), yielded_prepend, raised_prepend.
Qed.

Lemma tokenizer_concat_witness :
  yielded (tokenizer (["all: a \"; " b"] ++ ["X = 1"; "c: \"])) =
    (yielded (tokenizer ["all: a \"; " b"])
     ++ yielded (tokenizer ["X = 1"; "c: \"]))%list
  ∧ raised (tokenizer (["all: a \"; " b"] ++ ["X = 1"; "c: \"])) =
    raised (tokenizer ["X = 1"; "c: \"]).
Proof.
  apply (tokenizer_concat ["all: a \"; " b"] ["X = 1"; "c: \"]). reflexivity.
Defined.

(** X7. The text of an expression token is a line of the input without
    the spaces, semicolons and tabs at its two ends: it neither starts nor
    ends with one of these. *)
Theorem expression_token_text (fd : list string) (v : string) :
  (Tokens.expression, v) ∈ yielded (tokenizer fd) →
  ∃ line,
    line ∈ fd
    ∧ v = strip_chars (" ;" ++ String TAB "") line
    ∧ (∀ c, first_char v = Some c → in_chars (" ;" ++ String TAB "") c = false)
    ∧ (∀ c, last_char v = Some c → in_chars (" ;" ++ String TAB "") c = false).
Proof.
  intros Hv.
  enough (∃ line, line ∈ fd ∧ v = strip_chars (" ;" ++ String TAB "") line)
    as (line & Hline & ->).
  { exists line. split; [done|]. split; [done|]. unfold strip_chars. split.
    - intros c Hc.
      destruct (rstrip_by _ (lstrip_by _ line)) as [|d r] eqn:Hs; [done|].
      injection Hc as ->.
      apply rstrip_by_head in Hs. by apply lstrip_by_first in Hs.
    - intros c. apply rstrip_by_last. }
  revert v Hv.
  apply (tokenizer_rounds
           (λ fd g, ∀ v, (Tokens.expression, v) ∈ yielded g →
              ∃ line, line ∈ fd
                      ∧ v = strip_chars (" ;" ++ String TAB "") line)); simpl.
  - by intros v ?%elem_of_nil.
  - intros line it _ IH v (l & ? & ?)%IH. exists l. split; [by right|done].
  - by intros line it e _ v ?%elem_of_nil.
  - intros line it w used it' _ -> IH v [Hv|(l & ? & ?)%IH]%elem_of_cons.
    + exfalso. injection Hv as Hk _. unfold kind_of in Hk.
      by destruct (starts_with_tab line).
    + exists l. split; [|done]. right. apply elem_of_app. by right.
  - intros line it IH v [[= ->]|(l & ? & ?)%IH]%elem_of_cons.
    + exists line. split; [by left|done].
    + exists l. split; [by right|done].
Qed.

Lemma expression_token_text_witness :
  ∃ line,
    line ∈ ["all: a"; " CC := gcc ;"]
    ∧ "CC := gcc" = strip_chars (" ;" ++ String TAB "") line
    ∧ (∀ c, first_char "CC := gcc" = Some c →
            in_chars (" ;" ++ String TAB "") c = false)
    ∧ (∀ c, last_char "CC := gcc" = Some c →
            in_chars (" ;" ++ String TAB "") c = false).
Proof.
  apply (expression_token_text ["all: a"; " CC := gcc ;"] "CC := gcc").
  apply list_elem_of_further, list_elem_of_here.
Defined.

(** ** The parser, by induction on its rounds *)

Lemma parse_body_inl it e : parse_body it = inl e → raised it = Some e.
Proof.
  induction it as [[k v] it IH| |e0]; simpl; [|done|by intros [= ->]].
  destruct k; try done.
  destruct (parse_body it) as [e1|[b0 it0]]; [|done].
  intros [= ->]. by apply IH.
Qed.

Lemma parse_body_yielded it b it' :
  parse_body it = inr (b, it') →
  yielded it = (b ++ yielded it')%list
  ∧ Forall (λ tok : token, tok.1 = Tokens.command) b.
Proof.
  revert b it'. induction it as [[k v] it IH| |e]; intros b it'; simpl.
  - destruct k; try by intros [= <- <-].
    destruct (parse_body it) as [e|[b0 it0]]; [done|].
    intros [= <- <-]. destruct (IH b0 it0 eq_refl) as [-> Hb0].
    split; [done|]. by constructor.
  - by intros [= <- <-].
  - done.
Qed.

Lemma parse_body_rest it b it' :
  parse_body it = inr (b, it') → ∀ v g, it' ≠ Yield (Tokens.command, v) g.
Proof.
  revert b it'. induction it as [[k v] it IH| |e]; intros b it'; simpl.
  - destruct k; try by intros [= _ <-].
    destruct (parse_body it) as [e|[b0 it0]]; [done|].
    intros [= _ <-]. by apply (IH b0).
  - by intros [= _ <-].
  - done.
Qed.

Lemma parse_target_inl tok it ast e :
  parse_target tok it ast = inl e →
  (re_match target_re tok.2 = None
   ∧ e = AttributeError "'NoneType' object has no attribute 'groups'")
  ∨ (is_Some (re_match target_re tok.2) ∧ raised it = Some e).
Proof.
  unfold parse_target.
  destruct (re_match target_re tok.2) as [g|] eqn:Hg; [|intros [= <-]; by left].
  destruct (parse_body it) as [e0|[b it0]] eqn:Hb.
  - intros [= <-]. right. split; [by eexists|]. by apply parse_body_inl.
  - destruct (target_re_name _ _ Hg) as [name ->]. done.
Qed.

(** Induction on the rounds of the loop of [parse]. *)
Lemma parse_rounds
    (P : generator token → list ast_item → exn + list ast_item → Prop) :
  (∀ ast, P Stop ast (inr ast)) →
  (∀ e ast, P (Raise e) ast (inl e)) →
  (∀ v it ast e,
     parse_target (Tokens.target, v) it ast = inl e →
     P (Yield (Tokens.target, v) it) ast (inl e)) →
  (∀ v it ast ast' it',
     parse_target (Tokens.target, v) it ast = inr (ast', it') →
     P it' ast' (parse_loop it' ast') →
     P (Yield (Tokens.target, v) it) ast (parse_loop it' ast')) →
  (∀ v it ast,
     P it (ast ++ [ast_command v])%list
       (parse_loop it (ast ++ [ast_command v])%list) →
     P (Yield (Tokens.command, v) it) ast
       (parse_loop it (ast ++ [ast_command v])%list)) →
  (∀ v it ast,
     P it (ast ++ [ast_expression v])%list
       (parse_loop it (ast ++ [ast_expression v])%list) →
     P (Yield (Tokens.expression, v) it) ast
       (parse_loop it (ast ++ [ast_expression v])%list)) →
  ∀ it ast, P it ast (parse_loop it ast).
Proof.
  intros Hstop Hraise Hfail Htarget Hcommand Hexpression it.
  remember (remaining it) as n eqn:Hn. revert it Hn.
  induction n as [n IH] using lt_wf_ind.
  intros [[k v] it| |e] Hn ast; simpl in Hn.
  - rewrite parse_loop_yield. destruct k.
    + destruct (parse_target _ it ast) as [e|[ast0 it0]] eqn:Ht;
        [by apply Hfail|].
      apply Htarget; [done|]. apply (IH (remaining it0)); [|done].
      apply parse_target_inr in Ht
        as (_ & _ & b & _ & _ & Hb%parse_body_remaining & _). lia.
    + apply Hcommand. apply (IH (remaining it)); [lia|done].
    + apply Hexpression. apply (IH (remaining it)); [lia|done].
  - simp parse_loop; try apply Hstop.
  - simp parse_loop; try apply Hraise.
Qed.

Lemma well_formed_command b :
  Forall (λ tok : token, tok.1 = Tokens.command) b → Forall well_formed b.
Proof.
  intros Hb. apply (Forall_impl _ _ _ Hb).
  intros [k v] Hk Ht. simpl in *. congruence.
Qed.

Lemma parse_loop_returns it ast :
  (∃ ast', parse_loop it ast = inr ast')
  ↔ raised it = None ∧ Forall well_formed (yielded it).
Proof.
  apply (parse_rounds
           (λ it ast r, (∃ ast', r = inr ast')
                        ↔ raised it = None ∧ Forall well_formed (yielded it)));
    clear it ast; simpl.
  - intros ast. split; [done|]. by exists ast.
  - intros e ast. split; [by intros [? ?]|by intros [? _]].
  - intros v it ast e Ht. split; [by intros [? ?]|].
    intros [Hr [Hv Hit]%Forall_cons].
    apply parse_target_inl in Ht as [[Hnone _]|[_ He]].
    + destruct (Hv eq_refl) as [g Hg]. simpl in *. congruence.
    + congruence.
  - intros v it ast ast' it' Ht IH.
    apply parse_target_inr in Ht as (g & name & b & Hg & _ & Hb & _).
    rewrite IH, <- (parse_body_raised _ _ _ Hb).
    destruct (parse_body_yielded _ _ _ Hb) as [-> Hcmd].
    rewrite Forall_cons, Forall_app. split.
    + intros [Hr Hall]. split; [done|]. split; [by intros _; eexists|].
      split; [by apply well_formed_command|done].
    + by intros [Hr [_ [_ Hall]]].
  - intros v it ast ->. rewrite Forall_cons. split; [|tauto].
    intros [Hr Hall]. split; [done|]. split; [|done]. by intros Hk.
  - intros v it ast ->. rewrite Forall_cons. split; [|tauto].
    intros [Hr Hall]. split; [done|]. split; [|done]. by intros Hk.
Qed.

(** X8. [parse] returns an AST exactly when the tokenizer raises nothing
    and the text of every target token matches the pattern of
    [parse_target]. *)
Theorem parse_returns_iff (fd : list string) :
  (∃ ast, parse fd = inr ast)
  ↔ raised (tokenizer fd) = None
    ∧ Forall well_formed (yielded (tokenizer fd)).
Proof. apply parse_loop_returns. Qed.

Lemma parse_loop_raises it ast e :
  parse_loop it ast = inl e →
  e = AttributeError "'NoneType' object has no attribute 'groups'"
  ∨ raised it = Some e.
Proof.
  apply (parse_rounds
           (λ it ast r, r = inl e →
              e = AttributeError "'NoneType' object has no attribute 'groups'"
              ∨ raised it = Some e));
    clear it ast; simpl; try done.
  - intros e0 ast [= ->]. by right.
  - intros v it ast e0 [[_ ->]|[_ He]]%parse_target_inl [= <-]; auto.
  - intros v it ast ast' it' Ht IH Hr.
    apply parse_target_inr in Ht as (_ & _ & b & _ & _ & Hb & _).
    rewrite <- (parse_body_raised _ _ _ Hb). by apply IH.
Qed.

(** X9. [parse] raises three exceptions and no other: the two of the
    tokenizer, and the [AttributeError] of a target line that does not
    match the pattern. The name of a target is never missing from a
    match. *)
Theorem parse_exceptions (fd : list string) (e : exn) :
  parse fd = inl e →
  e = AttributeError "'NoneType' object has no attribute 'groups'"
  ∨ e = RuntimeError "generator raised StopIteration"
  ∨ e = IndexError "string index out of range".
Proof.
  intros [->|He]%parse_loop_raises; [by left|].
  right. by apply (tokenizer_raised fd).
Qed.

Lemma parse_exceptions_witness :
  IndexError "string index out of range" =
    AttributeError "'NoneType' object has no attribute 'groups'"
  ∨ IndexError "string index out of range" =
    RuntimeError "generator raised StopIteration"
  ∨ IndexError "string index out of range" =
    IndexError "string index out of range".
Proof.
  apply (parse_exceptions ["all: a \"; ""]). by vm_compute.
Defined.

Lemma ast_outline_snoc ast item :
  ast_outline (ast ++ [item]) = (ast_outline ast ++ item_outline item)%list.
Proof.
  unfold ast_outline. rewrite bind_app. simpl. by rewrite app_nil_r.
Qed.

Lemma parse_loop_outline it ast ast' :
  parse_loop it ast = inr ast' →
  ast_outline ast' = (ast_outline ast ++ (outline <$> yielded it))%list.
Proof.
  revert ast'.
  apply (parse_rounds
           (λ it ast r, ∀ ast', r = inr ast' →
              ast_outline ast' =
              (ast_outline ast ++ (outline <$> yielded it))%list));
    clear it ast; simpl; try done.
  - intros ast ast' [= <-]. by rewrite app_nil_r.
  - intros v it ast ast0 it' Ht IH ast' Hr.
    apply parse_target_inr in Ht as (g & name & b & _ & _ & Hb & ->).
    rewrite (IH _ Hr), ast_outline_snoc. simpl.
    destruct (parse_body_yielded _ _ _ Hb) as [-> _].
    by rewrite fmap_app, <- app_assoc.
  - intros v it ast IH ast' Hr.
    by rewrite (IH _ Hr), ast_outline_snoc, <- app_assoc.
  - intros v it ast IH ast' Hr.
    by rewrite (IH _ Hr), ast_outline_snoc, <- app_assoc.
Qed.

(** X10. The AST keeps every token, in the order of the input: read back
    with each record as its target token followed by the tokens of its
    body, the AST is the sequence of the tokens of the tokenizer (with the
    kind of each, and the text of each command and expression). The body
    of a record holds command tokens only. *)
Theorem parse_keeps_the_tokens (fd : list string) (ast : list ast_item) :
  parse fd = inr ast →
  ast_outline ast = outline <$> yielded (tokenizer fd)
  ∧ ∀ d, ast_target d ∈ ast →
         Forall (λ tok : token, tok.1 = Tokens.command) d.(body).
Proof.
  intros Hparse. split; [by apply (parse_loop_outline _ [])|].
  pose (P := λ item,
    match item with
    | ast_target d => Forall (λ tok : token, tok.1 = Tokens.command) d.(body)
    | _ => True
    end).
  assert (Forall P ast) as Hall.
  { apply (parse_loop_Forall P) with (it := tokenizer fd) (ast := []);
      [|done|done|constructor|exact Hparse].
    intros tok it ast0 ast' it' (g & name & b & _ & _ & Hb & ->)%parse_target_inr.
    eexists. split; [done|]. simpl.
    by destruct (parse_body_yielded _ _ _ Hb). }
  intros d Hd. rewrite Forall_forall in Hall. exact (Hall _ Hd).
Qed.

Lemma parse_keeps_the_tokens_witness :
  ast_outline
    [ast_expression "X = 1";
     ast_target {| target := "all"; deps := (["a"], []); docs := "";
                   body := [(Tokens.command, "cc"); (Tokens.command, "ld")] |};
     ast_expression "Y = 2"; ast_command "echo"] =
  outline <$> yielded (tokenizer
    ["X = 1"; "all: a"; String TAB "cc"; String TAB "ld"; "Y = 2";
     String TAB "echo"])
  ∧ ∀ d, ast_target d ∈
           [ast_expression "X = 1";
            ast_target {| target := "all"; deps := (["a"], []); docs := "";
                          body := [(Tokens.command, "cc");
                                   (Tokens.command, "ld")] |};
            ast_expression "Y = 2"; ast_command "echo"] →
         Forall (λ tok : token, tok.1 = Tokens.command) d.(body).
Proof.
  apply (parse_keeps_the_tokens
    ["X = 1"; "all: a"; String TAB "cc"; String TAB "ld"; "Y = 2";
     String TAB "echo"]).
  by vm_compute.
Defined.

Lemma command_after_target_snoc ast item :
  command_after_target (ast ++ [item])
  ↔ command_after_target ast
    ∨ ∃ l d v, ast = (l ++ [ast_target d])%list ∧ item = ast_command v.
Proof.
  unfold command_after_target. split.
  - intros (l1 & d & v & l2 & Heq).
    destruct l2 as [|x l2 _] using rev_ind.
    + right. exists l1, d, v.
      change (l1 ++ [ast_target d; ast_command v])%list
        with (l1 ++ [ast_target d] ++ [ast_command v])%list in Heq.
      rewrite app_assoc in Heq. by apply app_inj_tail in Heq as [-> ->].
    + left. exists l1, d, v, l2.
      change (l1 ++ ast_target d :: ast_command v :: l2 ++ [x])%list
        with (l1 ++ (ast_target d :: ast_command v :: l2) ++ [x])%list in Heq.
      rewrite app_assoc in Heq. by apply app_inj_tail in Heq as [-> _].
  - intros [(l1 & d & v & l2 & ->)|(l & d & v & -> & ->)].
    + exists l1, d, v, (l2 ++ [item])%list. by rewrite <- app_assoc.
    + exists l, d, v, []. by rewrite <- app_assoc.
Qed.

Lemma parse_loop_greedy it ast ast' :
  ¬ command_after_target ast →
  (∀ l d, ast = (l ++ [ast_target d])%list →
          ∀ v g, it ≠ Yield (Tokens.command, v) g) →
  parse_loop it ast = inr ast' → ¬ command_after_target ast'.
Proof.
  revert ast'.
  apply (parse_rounds
           (λ it ast r, ∀ ast',
              ¬ command_after_target ast →
              (∀ l d, ast = (l ++ [ast_target d])%list →
                      ∀ v g, it ≠ Yield (Tokens.command, v) g) →
              r = inr ast' → ¬ command_after_target ast'));
    clear it ast; simpl; try done.
  - by intros ast ast' Hast _ [= <-].
  - intros v it ast ast0 it' Ht IH ast' Hast _ Hr.
    apply parse_target_inr in Ht as (g & name & b & _ & _ & Hb & ->).
    apply (IH ast'); [| |done].
    + intros [?|(l & d & w & _ & [=])]%command_after_target_snoc. done.
    + intros l d _. by apply (parse_body_rest _ _ _ Hb).
  - intros v it ast IH ast' Hast Hend Hr. apply (IH ast'); [| |done].
    + intros [?|(l & d & w & -> & _)]%command_after_target_snoc; [done|].
      by apply (Hend l d eq_refl v it).
    + intros l d [_ [=]]%app_inj_tail.
  - intros v it ast IH ast' Hast Hend Hr. apply (IH ast'); [| |done].
    + intros [?|(l & d & w & _ & [=])]%command_after_target_snoc. done.
    + intros l d [_ [=]]%app_inj_tail.
Qed.

(** X11. The body of a target takes all the commands that follow the
    target line: in the AST a record is never followed by a command of its
    own. *)
Theorem parse_bodies_are_greedy (fd : list string) (ast : list ast_item) :
  parse fd = inr ast → ¬ command_after_target ast.
Proof.
  apply parse_loop_greedy.
  - intros (l1 & d & v & l2 & Heq). by destruct l1.
  - intros l d Heq. by destruct l.
Qed.

Lemma parse_bodies_are_greedy_witness :
  ¬ command_after_target
      [ast_command "echo";
       ast_target {| target := "all"; deps := ([], []); docs := "";
                     body := [(Tokens.command, "cc")] |}].
Proof.
  apply (parse_bodies_are_greedy [String TAB "echo"; "all:"; String TAB "cc"]).
  by vm_compute.
Defined.

(** ** The pattern, as the set of its matches *)

(** From here on [simpl] unfolds the concatenation of strings. *)
#[local] Arguments String.append !s1 s2 / : simpl nomatch.

Lemma all_chars_app p s1 s2 :
  all_chars p (s1 ++ s2) = all_chars p s1 && all_chars p s2.
Proof.
  induction s1 as [|c s1 IH]; simpl; [done|]. by rewrite IH, andb_assoc.
Qed.

Lemma string_app_nil_r (s : string) : s ++ "" = s.
Proof. induction s as [|c s IH]; simpl; [done|]. by rewrite IH. Qed.

Lemma string_app_assoc (s1 s2 s3 : string) :
  (s1 ++ s2) ++ s3 = s1 ++ (s2 ++ s3).
Proof. induction s1 as [|c s1 IH]; simpl; [done|]. by rewrite IH. Qed.

Lemma string_length_app (s1 s2 : string) :
  String.length (s1 ++ s2) = (String.length s1 + String.length s2)%nat.
Proof. induction s1 as [|c s1 IH]; simpl; [done|]. by rewrite IH. Qed.

Lemma substring_prefix (s1 s2 : string) :
  substring 0 (String.length s1) (s1 ++ s2) = s1.
Proof.
  induction s1 as [|c s1 IH]; simpl; [by destruct s2|]. by rewrite IH.
Qed.

Lemma consumed_app (pre s : string) : consumed (pre ++ s) s = pre.
Proof.
  unfold consumed. rewrite string_length_app.
  replace (String.length pre + String.length s - String.length s)%nat
    with (String.length pre) by lia.
  apply substring_prefix.
Qed.

Lemma star_greedy_spec {R : Type} p (k : string → option R) s x :
  star_greedy p k s = Some x →
  ∃ pre s', s = pre ++ s' ∧ all_chars p pre = true ∧ k s' = Some x.
Proof.
  induction s as [|c s IH]; simpl.
  - intros Hk. by exists "", "".
  - destruct (p c) eqn:Hc; [|intros Hk; by exists "", (String c s)].
    destruct (star_greedy p k s) as [y|] eqn:Hs.
    + intros [= ->]. destruct (IH eq_refl) as (pre & s' & -> & Hpre & Hk).
      exists (String c pre), s'. simpl. by rewrite Hc, Hpre.
    + intros Hk. by exists "", (String c s).
Qed.

Lemma plus_greedy_spec {R : Type} p (k : string → option R) s x :
  plus_greedy p k s = Some x →
  ∃ pre s',
    s = pre ++ s' ∧ pre ≠ "" ∧ all_chars p pre = true ∧ k s' = Some x.
Proof.
  destruct s as [|c s]; simpl; [done|]. destruct (p c) eqn:Hc; [|done].
  intros (pre & s' & -> & Hpre & Hk)%star_greedy_spec.
  exists (String c pre), s'. simpl. by rewrite Hc, Hpre.
Qed.

(** [c+?] takes the shortest repetition that lets the rest match. *)
Lemma plus_lazy_spec {R : Type} p (k : string → option R) s x :
  plus_lazy p k s = Some x →
  ∃ pre s',
    s = pre ++ s' ∧ pre ≠ "" ∧ all_chars p pre = true ∧ k s' = Some x
    ∧ ∀ pre1 pre2, pre = pre1 ++ pre2 → pre1 ≠ "" → pre2 ≠ "" →
                   k (pre2 ++ s') = None.
Proof.
  induction s as [|c s IH]; simpl; [done|].
  destruct (p c) eqn:Hc; [|done].
  destruct (k s) as [y|] eqn:Hk.
  - intros [= ->]. exists (String c ""), s. simpl. rewrite Hc.
    repeat split; try done.
    intros [|c1 [|c1' pre1]] [|c2 pre2] Heq; simplify_eq/=; done.
  - intros (pre & s' & -> & Hne & Hpre & Hx & Hmin)%IH.
    exists (String c pre), s'. simpl. rewrite Hc, Hpre.
    repeat split; try done.
    intros [|c1 pre1] pre2 Heq H1 H2; [done|]. simplify_eq/=.
    destruct pre1 as [|c1' pre1]; simpl in *; [done|].
    by apply (Hmin (String c1' pre1) pre2).
Qed.

Lemma plus_lazy_complete {R : Type} p (k : string → option R) pre s' :
  pre ≠ "" → all_chars p pre = true → is_Some (k s') →
  is_Some (plus_lazy p k (pre ++ s')).
Proof.
  intros Hne Hpre Hk. induction pre as [|c pre IH]; [done|].
  simpl in *. apply andb_true_iff in Hpre as [-> Hpre].
  destruct pre as [|c' pre].
  - simpl. destruct Hk as [y ->]. by eexists.
  - destruct (k (String c' pre ++ s')); [by eexists|]. by apply IH.
Qed.

(** The backtracking matcher returns matches of the pattern. *)
Lemma rmatch_matches {R : Type} r s g (k : string → groups → option R) x :
  rmatch r s g k = Some x →
  ∃ s' l, matches r s s' l ∧ k s' (l ++ g)%list = Some x.
Proof.
  revert s g k.
  induction r as [p|p|p|r IH|i r IH|r1 IH1 r2 IH2]; intros s g k; simpl.
  - destruct s as [|c s]; [done|]. destruct (p c) eqn:Hc; [|done].
    intros Hk. exists s, []. split; [by constructor|done].
  - intros (pre & s' & -> & Hne & Hpre & Hk)%plus_greedy_spec.
    exists s', []. split; [by constructor|done].
  - intros (pre & s' & -> & Hne & Hpre & Hk & _)%plus_lazy_spec.
    exists s', []. split; [by constructor|done].
  - destruct (rmatch r s g k) as [y|] eqn:Hr.
    + intros [= ->]. apply IH in Hr as (s' & l & Hm & Hk).
      exists s', l. split; [by constructor|done].
    + intros Hk. exists s, []. split; [apply matches_opt_skip|done].
  - intros (s' & l & Hm & Hk)%IH.
    exists s', ((i, consumed s s') :: l). split; [by constructor|done].
  - intros (s' & l1 & Hm1 & (s'' & l2 & Hm2 & Hk)%IH2)%IH1.
    exists s'', (l2 ++ l1)%list.
    split; [by econstructor|]. by rewrite <- app_assoc.
Qed.

Lemma matches_captures r s s' l i c :
  matches r s s' l → (i, c) ∈ l → captures r i c.
Proof.
  induction 1 as [| | | r s s' l Hm IH | |j r s s' l Hm IH
                  |r1 r2 s s' s'' l1 l2 Hm1 IH1 Hm2 IH2]; simpl;
    try by intros ?%elem_of_nil.
  - done.
  - intros [[= -> ->]|Hin]%elem_of_cons; [left|right; by apply IH].
    split; [done|]. by exists s, s', l.
  - intros [?|?]%elem_of_app; [right; by apply IH2|left; by apply IH1].
Qed.

Lemma group_elem g i c : group g i = Some c → (i, c) ∈ g.
Proof.
  unfold group. induction g as [|[j d] g IH]; simpl; [done|].
  destruct (Nat.eqb j i) eqn:Hj; simpl.
  - intros [= ->]. apply Nat.eqb_eq in Hj as ->. by left.
  - intros H. right. by apply IH.
Qed.

Lemma group_app_last l i c :
  (∀ d, (i, d) ∉ l) → group (l ++ [(i, c)])%list i = Some c.
Proof.
  unfold group. induction l as [|[j d] l IH]; simpl; intros Hl.
  - by rewrite Nat.eqb_refl.
  - destruct (Nat.eqb j i) eqn:Hj.
    + apply Nat.eqb_eq in Hj as ->. exfalso. apply (Hl d). by left.
    + apply IH. intros d' Hd'. apply (Hl d'). by right.
Qed.

Lemma rmatch_optional {R : Type} r s g (k : string → groups → option R) :
  optional r = true → (∀ s g, is_Some (k s g)) → is_Some (rmatch r s g k).
Proof.
  revert s g k.
  induction r as [p|p|p|r IH|i r IH|r1 IH1 r2 IH2]; intros s g k; simpl;
    try done.
  - intros _ Hk. destruct (rmatch r s g k); [by eexists|apply Hk].
  - intros Hr Hk. by apply IH.
  - intros [H1 H2]%andb_true_iff Hk. apply IH1; [done|].
    intros s' g'. by apply IH2.
Qed.

(** The pattern of a target line: a name, a colon, optional parts. *)
Lemma target_re_shape :
  ∃ rest,
    target_re =
    re_seq (re_group 1 (re_plus_lazy dot))
           (re_seq (re_class (is_char ":")) rest)
    ∧ optional rest = true
    ∧ ∀ c, ¬ captures rest 1 c.
Proof.
  eexists. split; [reflexivity|]. split; [reflexivity|].
  intros c. simpl. intuition congruence.
Qed.

Lemma contains_split c s :
  contains c s = true → ∃ s1 s2, s = s1 ++ String c s2.
Proof.
  unfold contains. induction s as [|d s IH]; simpl; [done|].
  destruct (Ascii.eqb c d) eqn:Hd; simpl.
  - apply Ascii.eqb_eq in Hd as ->. intros _. by exists "", s.
  - intros (s1 & s2 & ->)%IH. by exists (String d s1), s2.
Qed.

(** The name that a match gives to the first group. *)
Lemma target_re_group_1 v g :
  re_match target_re v = Some g →
  ∃ name rest,
    group g 1 = Some name
    ∧ v = name ++ String ":" rest
    ∧ name ≠ ""
    ∧ all_chars dot name = true
    ∧ contains ":" (str_tail name) = false.
Proof.
  destruct target_re_shape as (tail & -> & Htail & Hcap).
  unfold re_match. cbn [rmatch].
  intros (name & s' & -> & Hne & Hdot & Hk & Hmin)%plus_lazy_spec.
  destruct s' as [|c rest]; [done|].
  destruct (is_char ":" c) eqn:Hc; [|done].
  apply Ascii.eqb_eq in Hc as <-.
  apply rmatch_matches in Hk as (s'' & l & Hm & [= <-]).
  rewrite consumed_app. exists name, rest.
  split; [|split; [done|split; [done|split; [done|]]]].
  { apply group_app_last. intros d Hd. apply (Hcap d).
    by eapply matches_captures. }
  destruct (contains ":" (str_tail name)) eqn:Hcolon; [exfalso|done].
  destruct name as [|c0 name]; [done|]. simpl in Hcolon.
  apply contains_split in Hcolon as (s1 & s2 & ->).
  specialize (Hmin (String c0 s1) (String ":" s2) eq_refl).
  specialize (Hmin ltac:(done) ltac:(done)).
  simpl in Hmin.
  match type of Hmin with
  | rmatch ?t ?s ?g ?k = None =>
      destruct (rmatch_optional t s g k Htail) as [y Hy];
        [by eexists|congruence]
  end.
Qed.

(** X12. In the record of a target, the name is the trimmed text before
    the first colon of the line, a colon that opens the line not counted:
    the line is that text, a colon and the rest; the text is not empty,
    has no newline, and has no colon after its first character. *)
Theorem target_name_is_before_first_colon (tok : token)
    (it : generator token) (ast ast' : list ast_item)
    (it' : generator token) :
  parse_target tok it ast = inr (ast', it') →
  ∃ name rest d,
    tok.2 = name ++ String ":" rest
    ∧ name ≠ ""
    ∧ all_chars dot name = true
    ∧ contains ":" (str_tail name) = false
    ∧ ast' = (ast ++ [ast_target d])%list
    ∧ d.(target) = strip name.
Proof.
  intros (g & name & b & Hg & Hname & _ & ->)%parse_target_inr.
  apply target_re_group_1 in Hg as (name' & rest & Hname' & Hv & H1 & H2 & H3).
  rewrite Hname in Hname'. injection Hname' as <-.
  exists name, rest. eexists. repeat split; done.
Qed.

Lemma target_name_is_before_first_colon_witness :
  ∃ name rest d,
    "obj/a.o : a.c: b" = name ++ String ":" rest
    ∧ name ≠ ""
    ∧ all_chars dot name = true
    ∧ contains ":" (str_tail name) = false
    ∧ [ast_target {| target := "obj/a.o"; deps := (["a.c:"; "b"], []);
                     docs := ""; body := [] |}] = ([] ++ [ast_target d])%list
    ∧ d.(target) = strip name.
Proof.
  apply (target_name_is_before_first_colon
           (Tokens.target, "obj/a.o : a.c: b") Stop [] _ Stop).
  by vm_compute.
Defined.

(** X13. The text of a target token matches the pattern of [parse_target]
    exactly when a colon of it stands after at least one character and no
    newline stands before that colon. With C8: a line such as [:x], whose
    only colon is its first character, is what makes [parse] raise
    [AttributeError]. *)
Theorem target_line_matches_iff (v : string) :
  is_Some (re_match target_re v)
  ↔ ∃ name rest,
      v = name ++ String ":" rest ∧ name ≠ "" ∧ all_chars dot name = true.
Proof.
  split.
  - intros [g Hg]. apply target_re_group_1 in Hg
      as (name & rest & _ & Hv & Hne & Hdot & _).
    by exists name, rest.
  - intros (name & rest & -> & Hne & Hdot).
    destruct target_re_shape as (tail & -> & Htail & _).
    unfold re_match. cbn [rmatch].
    apply plus_lazy_complete; [done..|].
    simpl. by apply rmatch_optional; [|eexists].
Qed.

(** ** The names of the dependencies *)

Lemma all_chars_lstrip_by q p s :
  all_chars q s = true → all_chars q (lstrip_by p s) = true.
Proof.
  induction s as [|c s IH]; simpl; [done|].
  intros [Hc Hs]%andb_true_iff. destruct (p c); [by apply IH|].
  simpl. by rewrite Hc, Hs.
Qed.

Lemma all_chars_rstrip_by q p s :
  all_chars q s = true → all_chars q (rstrip_by p s) = true.
Proof.
  induction s as [|c s IH]; simpl; [done|].
  intros [Hc Hs]%andb_true_iff. specialize (IH Hs).
  destruct (rstrip_by p s) as [|d r].
  - destruct (p c); simpl; [done|]. by rewrite Hc.
  - simpl in *. by rewrite Hc, IH.
Qed.

Lemma split_go_words q w s x :
  all_chars q s = true →
  (∀ w0, w = Some w0 → w0 ≠ "" ∧ all_chars (name_char q) w0 = true) →
  x ∈ split_go w s →
  x ≠ "" ∧ all_chars (name_char q) x = true.
Proof.
  revert w. induction s as [|c s IH]; intros w; simpl.
  - intros _ Hw. destruct w as [w0|]; simpl.
    + intros ->%list_elem_of_singleton. by apply Hw.
    + by intros ?%elem_of_nil.
  - intros [Hc Hs]%andb_true_iff Hw.
    destruct (isspace c) eqn:Hspace.
    + intros [Hx|Hx]%elem_of_app.
      * destruct w as [w0|]; simpl in Hx.
        -- apply list_elem_of_singleton in Hx as ->. by apply Hw.
        -- by apply elem_of_nil in Hx.
      * by apply (IH None).
    + apply IH; [done|]. intros w1 [= <-].
      destruct w as [w0|]; simpl.
      * destruct (Hw w0 eq_refl) as [Hne Hw0]. split.
        -- by destruct w0.
        -- rewrite all_chars_app, Hw0. simpl. unfold name_char.
           by rewrite Hspace, Hc.
      * split; [done|]. unfold name_char. by rewrite Hspace, Hc.
Qed.

Lemma dep_names_clean q o :
  (∀ c, o = Some c → all_chars q c = true) →
  Forall (λ x, x ≠ "" ∧ all_chars (name_char q) x = true) (dep_names o).
Proof.
  intros Ho. unfold dep_names. destruct (truthy o) eqn:Ht; [|constructor].
  destruct o as [c|]; [|done]. simpl.
  apply Forall_forall. intros x Hx.
  unfold sorted in Hx. rewrite merge_sort_Permutation in Hx.
  apply (split_go_words q None (strip c)); [|done|done].
  apply all_chars_rstrip_by, all_chars_lstrip_by. by apply Ho.
Qed.

Lemma matches_plus_consumed p s s' l :
  matches (re_plus p) s s' l → all_chars p (consumed s s') = true.
Proof. inversion 1; subst. by rewrite consumed_app. Qed.

(** What the second and the third group of a match hold. *)
Lemma target_re_deps v g :
  re_match target_re v = Some g →
  (∀ c, group g 2 = Some c → all_chars (not_in "|#") c = true)
  ∧ (∀ c, group g 3 = Some c → all_chars (not_in "##") c = true).
Proof.
  unfold re_match. intros (s' & l & Hm & [= <-])%rmatch_matches.
  rewrite app_nil_r.
  split; intros c Hc%group_elem; apply (matches_captures _ _ _ _ _ _ Hm) in Hc;
    simpl in Hc;
    repeat match goal with
    | H : _ ∨ _ |- _ => destruct H
    | H : _ ∧ _ |- _ => destruct H
    | H : ∃ _, _ |- _ => destruct H
    | H : False |- _ => destruct H
    end; try discriminate; subst; by eapply matches_plus_consumed.
Qed.

(** X14. In every record of an AST of [parse], a dependency is a word of
    the line: not empty and without white space. A required dependency
    has no [|] and no [#]; an order-only dependency has no [#]. *)
Theorem dependency_names_are_words (fd : list string)
    (ast : list ast_item) (d : target_dict) :
  parse fd = inr ast → ast_target d ∈ ast →
  Forall (λ x, x ≠ "" ∧ all_chars (name_char (not_in "|#")) x = true)
    d.(deps).1
  ∧ Forall (λ x, x ≠ "" ∧ all_chars (name_char (not_in "##")) x = true)
      d.(deps).2.
Proof.
  intros Hparse Hd.
  pose (P := λ item,
    match item with
    | ast_target d =>
        Forall (λ x, x ≠ "" ∧ all_chars (name_char (not_in "|#")) x = true)
          d.(deps).1
        ∧ Forall (λ x, x ≠ "" ∧ all_chars (name_char (not_in "##")) x = true)
            d.(deps).2
    | _ => True
    end).
  assert (Forall P ast) as Hall.
  { apply (parse_loop_Forall P) with (it := tokenizer fd) (ast := []);
      [|done|done|constructor|exact Hparse].
    intros tok it ast0 ast' it' (g & name & b & Hg & _ & _ & ->)%parse_target_inr.
    eexists. split; [done|]. simpl.
    destruct (target_re_deps _ _ Hg) as [H2 H3].
    split; by apply dep_names_clean. }
  rewrite Forall_forall in Hall. exact (Hall _ Hd).
Qed.

Lemma dependency_names_are_words_witness :
  Forall (λ x, x ≠ "" ∧ all_chars (name_char (not_in "|#")) x = true)
    ["a.c"; "b.h"]
  ∧ Forall (λ x, x ≠ "" ∧ all_chars (name_char (not_in "##")) x = true)
      ["obj|bin"].
Proof.
  apply (dependency_names_are_words
           ["x:  b.h   a.c | obj|bin ## doc"]
           [ast_target {| target := "x"; deps := (["a.c"; "b.h"], ["obj|bin"]);
                          docs := "doc"; body := [] |}]
           {| target := "x"; deps := (["a.c"; "b.h"], ["obj|bin"]);
              docs := "doc"; body := [] |}).
  - by vm_compute.
  - apply list_elem_of_here.
Defined.

(** ** The graph: what [dependencies] keeps *)

Lemma direct_pass_last pre d post :
  d.(target) ≠ ".PHONY" →
  (∀ d', ast_target d' ∈ post → d'.(target) ≠ d.(target)) →
  dependencies (direct_pass (pre ++ ast_target d :: post)) !! d.(target)
  = Some d.(deps).
Proof.
  intros Hd. induction post as [|item post IH] using rev_ind; intros Hpost.
  - rewrite direct_pass_snoc, direct_step_dependencies by done.
    by rewrite decide_True.
  - rewrite app_comm_cons, app_assoc, direct_pass_snoc.
    assert (dependencies (direct_pass (pre ++ ast_target d :: post))
              !! target d = Some (deps d)) as IH'.
    { apply IH. intros d' Hd'. apply Hpost, elem_of_app. by left. }
    destruct item as [d'| |]; [|done..].
    destruct (decide (d'.(target) = ".PHONY")) as [Hp|Hp].
    + rewrite direct_step_skip; [done|]. by intros ? [= <-].
    + rewrite direct_step_dependencies by done.
      rewrite decide_False; [done|].
      apply Hpost, elem_of_app. right. apply list_elem_of_singleton. done.
Qed.

Lemma direct_pass_lookup ast k v :
  dependencies (direct_pass ast) !! k = Some v
  ↔ ∃ pre d post,
      ast = (pre ++ ast_target d :: post)%list
      ∧ d.(target) = k ∧ d.(deps) = v ∧ k ≠ ".PHONY"
      ∧ ∀ d', ast_target d' ∈ post → d'.(target) ≠ k.
Proof.
  split.
  - revert v. induction ast as [|item ast IH] using rev_ind; intros v.
    { by unfold direct_pass. }
    rewrite direct_pass_snoc.
    assert (∀ v, (∀ d, item = ast_target d → d.(target) = ".PHONY") →
              dependencies (direct_pass ast) !! k = Some v →
              ∃ pre d post,
                (ast ++ [item])%list = (pre ++ ast_target d :: post)%list
                ∧ d.(target) = k ∧ d.(deps) = v ∧ k ≠ ".PHONY"
                ∧ ∀ d', ast_target d' ∈ post → d'.(target) ≠ k) as Hskip.
    { intros v0 Hitem (pre & d & post & -> & <- & <- & Hk & Hpost)%IH.
      exists pre, d, (post ++ [item])%list.
      rewrite <- app_assoc. split_and!; try done.
      intros d' [Hd'|Hd'%list_elem_of_singleton]%elem_of_app; [by apply Hpost|].
      symmetry in Hd'. apply Hitem in Hd'. congruence. }
    destruct item as [d| |];
      [destruct (decide (d.(target) = ".PHONY")) as [Hp|Hp]|..].
    2: { rewrite direct_step_dependencies by done. case_decide as Hk.
         - intros [= <-]. exists ast, d, []. split_and!; try done; try congruence.
           by intros d' ?%elem_of_nil.
         - intros (pre & d0 & post & -> & <- & <- & Hk0 & Hpost)%IH.
           exists pre, d0, (post ++ [ast_target d])%list.
           rewrite <- app_assoc. split_and!; try done.
           intros d' [Hd'|[= <-]%list_elem_of_singleton]%elem_of_app;
             [by apply Hpost|done]. }
    all: rewrite direct_step_skip by (by intros ? [= <-] || done).
    all: apply Hskip; by intros ? [= <-] || done.
  - intros (pre & d & post & -> & <- & <- & Hk & Hpost).
    by apply direct_pass_last.
Qed.

(** X15. When a target is defined more than once, [dependencies] keeps
    the lists of its last definition: [dependencies[k]] is a pair of lists
    exactly when a target named [k], other than [.PHONY], has that pair
    and no later target of the AST has the name [k]. *)
Theorem dependencies_last_definition_wins (ast : list ast_item)
    (k : string) (v : list string * list string) :
  dependencies (direct_pass ast) !! k = Some v
  ↔ ∃ pre d post,
      ast = (pre ++ ast_target d :: post)%list
      ∧ d.(target) = k ∧ d.(deps) = v ∧ k ≠ ".PHONY"
      ∧ ∀ d', ast_target d' ∈ post → d'.(target) ≠ k.
Proof. apply direct_pass_lookup. Qed.

Lemma elem_of_target_names ast k :
  k ∈ target_names ast ↔ ∃ d, graphed ast d ∧ d.(target) = k.
Proof.
  unfold target_names, graphed. rewrite list_elem_of_omap. split.
  - intros ([d| |] & Hin & Hk); [|done..].
    case_bool_decide; [done|]. injection Hk as <-. by exists d.
  - intros (d & [Hin Hp] & <-). exists (ast_target d). split; [done|].
    by rewrite bool_decide_eq_false_2.
Qed.

Lemma target_names_app ast ast' :
  target_names (ast ++ ast') = (target_names ast ++ target_names ast')%list.
Proof. apply omap_app. Qed.

(** With each name defined once, a definition is the last one. *)
Lemma direct_pass_lookup_once ast k v :
  NoDup (target_names ast) →
  dependencies (direct_pass ast) !! k = Some v
  ↔ ∃ d, graphed ast d ∧ d.(target) = k ∧ d.(deps) = v.
Proof.
  intros Hnodup. rewrite direct_pass_lookup. split.
  - intros (pre & d & post & -> & <- & <- & Hk & _). exists d.
    split; [|done]. split; [|done]. apply elem_of_app. right. by left.
  - intros (d & [(pre & post & ->)%list_elem_of_split Hp] & <- & <-).
    exists pre, d, post. split; [done|]. split; [done|]. split; [done|].
    split; [done|]. intros d' Hd' Heq.
    rewrite target_names_app in Hnodup.
    apply NoDup_app in Hnodup as (_ & _ & Hnodup).
    simpl in Hnodup. rewrite bool_decide_eq_false_2 in Hnodup by done.
    apply NoDup_cons in Hnodup as [Hnotin _]. apply Hnotin.
    apply elem_of_target_names. exists d'. split; [|done].
    split; [done|congruence].
Qed.

(** X16. When no name is defined twice, [influences] is [dependencies]
    read backwards: [t] is in [influences[k]] exactly when [k] is in the
    list of required dependencies of [dependencies[t]]. *)
Theorem influences_reverse_dependencies (ast : list ast_item) :
  NoDup (target_names ast) →
  ∀ t k,
    t ∈ dd_get (influences (direct_pass ast)) k
    ↔ ∃ v, dependencies (direct_pass ast) !! t = Some v ∧ k ∈ v.1.
Proof.
  intros Hnodup t k. rewrite direct_pass_influences. split.
  - intros (d & Hd & <- & Hk). exists d.(deps). split; [|done].
    apply direct_pass_lookup_once; [done|]. by exists d.
  - intros (v & (d & Hd & <- & <-)%direct_pass_lookup_once & Hk); [|done].
    by exists d.
Qed.

Lemma influences_reverse_dependencies_witness :
  NoDup (target_names chain_ast)
  ∧ ∀ t k,
      t ∈ dd_get (influences (direct_pass chain_ast)) k
      ↔ ∃ v, dependencies (direct_pass chain_ast) !! t = Some v ∧ k ∈ v.1.
Proof.
  assert (NoDup (target_names chain_ast)) as Hnodup.
  { vm_compute. repeat constructor; set_solver. }
  split; [done|].
  apply (influences_reverse_dependencies chain_ast Hnodup).
Defined.

(** ** The graph: the names that it holds *)

Lemma recurse_keys infl limit o t ind r :
  recurse_indirect_influences limit infl o t ind = Some r →
  ∀ k, is_Some (r !! k) ↔ is_Some (ind !! k) ∨ k = o.
Proof.
  revert t ind r. induction limit as [|limit IH]; intros t ind r; [done|].
  rewrite recurse_S. intros Hr.
  pose (P := λ (seen : list string) (s : gmap string (gset string)),
    ∀ k, is_Some (s !! k) ↔ is_Some (ind !! k) ∨ k = o).
  apply (for_each_inv _ P _ _ _) with (3 := Hr).
  - intros k. unfold dd_update. rewrite lookup_insert.
    case_decide; subst; [|naive_solver]. split; [by right|by eexists].
  - intros seen a s s' Hs _ Hs' k.
    rewrite (IH _ _ _ Hs' k), (Hs k). tauto.
Qed.

Lemma indirect_pass_keys infl limit r :
  indirect_pass limit infl = Some r →
  ∀ o, is_Some (r !! o) ↔ ∃ t, edge infl o t.
Proof.
  unfold indirect_pass. intros Hr.
  pose (P := λ (seen : list (string * gset string))
               (s : gmap string (gset string)),
    ∀ o, is_Some (s !! o) ↔ o ∈ seen.*1 ∧ ∃ t, edge infl o t).
  assert (P (map_to_list infl) r) as HP.
  { apply (for_each_inv _ P _ _ _) with (3 := Hr).
    - intros o. rewrite lookup_empty. split; [by intros [? ?]|].
      by intros [?%elem_of_nil _].
    - intros seen [o' targets] s s' Hs Ho'%elem_of_map_to_list Hs' o.
      pose (Q := λ (seen' : list string) (s0 : gmap string (gset string)),
        ∀ k, is_Some (s0 !! k)
             ↔ is_Some (s !! k) ∨ (k = o' ∧ ∃ t, t ∈ seen')).
      assert (Q (elements targets) s') as HQ.
      { apply (for_each_inv _ Q _ _ _) with (3 := Hs').
        - intros k. split; [by left|].
          by intros [?|[_ (t & ?%elem_of_nil)]].
        - intros seen' a s0 s0' Hs0 _ Hs0' k.
          rewrite (recurse_keys _ _ _ _ _ _ Hs0' k), (Hs0 k).
          setoid_rewrite elem_of_app. setoid_rewrite list_elem_of_singleton.
          naive_solver. }
      rewrite (HQ o), (Hs o), fmap_app, elem_of_app. simpl.
      rewrite list_elem_of_singleton.
      assert (∀ t, t ∈ elements targets ↔ edge infl o' t) as Hedge.
      { intros t. unfold edge, dd_get. rewrite Ho'. simpl.
        apply elem_of_elements. }
      setoid_rewrite Hedge. naive_solver. }
  intros o. rewrite (HP o). split; [by intros [_ ?]|].
  intros (t & Ht). split; [|eauto].
  destruct (edge_is_Some _ _ _ Ht) as [targets Ho].
  apply list_elem_of_fmap. exists (o, targets). split; [done|].
  by apply elem_of_map_to_list.
Qed.

Lemma beyond_tc infl t y : beyond infl t y ↔ tc (edge infl) t y.
Proof.
  unfold beyond. split.
  - intros (x & Hx & Hy). eapply tc_rtc_l; [done|by apply tc_once].
  - induction 1 as [t y Hty|t t' y Htt' _ (x & Hx & Hy)].
    + exists t. split; [apply rtc_refl|done].
    + exists x. split; [by eapply rtc_l|done].
Qed.

Lemma beyond_target ast t y :
  beyond (influences (direct_pass ast)) t y →
  is_Some (dependencies (direct_pass ast) !! y).
Proof.
  intros (x & _ & (d & Hd & <- & _)%direct_pass_influences).
  apply direct_pass_dependencies. by exists d.
Qed.

(** X17. The names of the four results hang together: every key of
    [dependencies] and every member of [order_only] is a key of
    [influences], and every member of a set of [influences] or of
    [indirect_influences] is a key of [dependencies], that is, a target
    that the AST defines. *)
Theorem graph_names_are_keys (limit : nat) (ast : list ast_item)
    (g : graph) :
  get_dependencies_influences limit ast = Some g →
  (∀ k, is_Some (g_dependencies g !! k) → is_Some (g_influences g !! k))
  ∧ (∀ k, k ∈ g_order_only g → is_Some (g_influences g !! k))
  ∧ (∀ k t, t ∈ dd_get (g_influences g) k →
            is_Some (g_dependencies g !! t))
  ∧ (∀ k t, t ∈ dd_get (g_indirect_influences g) k →
            is_Some (g_dependencies g !! t)
            ∧ is_Some (g_influences g !! k)).
Proof.
  intros (ind & Hind & ->)%get_dependencies_influences_Some. simpl.
  split; [|split; [|split]].
  - intros k (d & Hd & <-)%direct_pass_dependencies.
    apply direct_pass_keys. exists d. auto.
  - intros k (d & Hd & Hk)%direct_pass_order_only.
    apply direct_pass_keys. exists d. auto.
  - intros k t (d & Hd & <- & _)%direct_pass_influences.
    apply direct_pass_dependencies. by exists d.
  - intros k t Ht.
    apply (indirect_pass_spec _ _ _ Hind) in Ht as (t' & Hk & Ht).
    split; [by eapply beyond_target|by eapply edge_is_Some].
Qed.

Lemma graph_names_are_keys_witness :
  ∃ g,
    get_dependencies_influences 2 chain_ast = Some g
    ∧ (∀ k, is_Some (g_dependencies g !! k) → is_Some (g_influences g !! k))
    ∧ (∀ k, k ∈ g_order_only g → is_Some (g_influences g !! k))
    ∧ (∀ k t, t ∈ dd_get (g_influences g) k →
              is_Some (g_dependencies g !! t))
    ∧ (∀ k t, t ∈ dd_get (g_indirect_influences g) k →
              is_Some (g_dependencies g !! t)
              ∧ is_Some (g_influences g !! k)).
Proof.
  eexists. split; [by vm_compute|].
  apply (graph_names_are_keys 2 chain_ast). by vm_compute.
Defined.

(** X18. [indirect_influences] has a key for each name with at least one
    direct influence, and for no other name; the set under the key can be
    empty, as for [B] after the single line [A: B]. *)
Theorem indirect_influences_keys (limit : nat) (ast : list ast_item)
    (g : graph) :
  get_dependencies_influences limit ast = Some g →
  ∀ o, is_Some (g_indirect_influences g !! o)
       ↔ ∃ t, t ∈ dd_get (g_influences g) o.
Proof.
  intros (ind & Hind & ->)%get_dependencies_influences_Some. simpl.
  by apply indirect_pass_keys with (limit := limit).
Qed.

Lemma indirect_influences_keys_witness :
  ∃ g,
    get_dependencies_influences 1
      [ast_target {| target := "A"; deps := (["B"], []);
                     docs := ""; body := [] |}] = Some g
    ∧ g_indirect_influences g !! "B" = Some ∅
    ∧ ∀ o, is_Some (g_indirect_influences g !! o)
           ↔ ∃ t, t ∈ dd_get (g_influences g) o.
Proof.
  eexists. split; [by vm_compute|]. split; [by vm_compute|].
  apply (indirect_influences_keys 1
           [ast_target {| target := "A"; deps := (["B"], []);
                          docs := ""; body := [] |}]).
  by vm_compute.
Defined.

(** X19. Direct and indirect influences together are the transitive
    closure of the direct ones: [y] is in [influences[o]] or in
    [indirect_influences[o]] exactly when a chain of one or more direct
    influences leads from [o] to [y]. *)
Theorem influences_transitive_closure (limit : nat) (ast : list ast_item)
    (g : graph) :
  get_dependencies_influences limit ast = Some g →
  ∀ o y,
    y ∈ dd_get (g_influences g) o ∪ dd_get (g_indirect_influences g) o
    ↔ tc (edge (g_influences g)) o y.
Proof.
  intros (ind & Hind & ->)%get_dependencies_influences_Some o y. simpl.
  rewrite elem_of_union, (indirect_pass_spec _ _ _ Hind o y).
  setoid_rewrite beyond_tc. split.
  - intros [Hy|(t & Ht & Hy)]; [by apply tc_once|by eapply tc_l].
  - inversion 1 as [|? t]; subst; [by left|right; by exists t].
Qed.

Lemma influences_transitive_closure_witness :
  ∃ g,
    get_dependencies_influences 2 chain_ast = Some g
    ∧ ∀ o y,
        y ∈ dd_get (g_influences g) o ∪ dd_get (g_indirect_influences g) o
        ↔ tc (edge (g_influences g)) o y.
Proof.
  eexists. split; [by vm_compute|].
  apply (influences_transitive_closure 2 chain_ast). by vm_compute.
Defined.

(** X20. When the graph builder returns, no target is among its own
    influences, direct or indirect, and the indirect influences are
    closed under influence: an influence of an influence of [o], direct
    or not, is an indirect influence of [o]. *)
Theorem no_target_influences_itself (limit : nat) (ast : list ast_item)
    (g : graph) :
  get_dependencies_influences limit ast = Some g →
  (∀ x, (x ∉ dd_get (g_influences g) x)
        ∧ x ∉ dd_get (g_indirect_influences g) x)
  ∧ ∀ o y z,
      y ∈ dd_get (g_influences g) o ∪ dd_get (g_indirect_influences g) o →
      z ∈ dd_get (g_influences g) y ∪ dd_get (g_indirect_influences g) y →
      z ∈ dd_get (g_indirect_influences g) o.
Proof.
  intros (ind & Hind & ->)%get_dependencies_influences_Some. simpl.
  pose proof (indirect_pass_spec _ _ _ Hind) as Hspec.
  assert (∀ o y, y ∈ dd_get ind o →
            tc (edge (influences (direct_pass ast))) o y) as Htc.
  { intros o y (t & Ht & Hy%beyond_tc)%Hspec. by eapply tc_l. }
  split.
  - intros x. split; intros Hx.
    + rewrite (indirect_pass_cycle _ limit x) in Hind; [done|].
      by apply tc_once.
    + rewrite (indirect_pass_cycle _ limit x) in Hind; [done|].
      by apply Htc.
  - intros o y z Hy Hz.
    assert (tc (edge (influences (direct_pass ast))) y z) as Hyz.
    { apply elem_of_union in Hz as [Hz|Hz]; [by apply tc_once|by apply Htc]. }
    apply elem_of_union in Hy as [Hy|Hy].
    + apply Hspec. exists y. split; [done|]. by apply beyond_tc.
    + apply Hspec in Hy as (t & Ht & Hy%beyond_tc).
      apply Hspec. exists t. split; [done|].
      apply beyond_tc. by etrans.
Qed.

Lemma no_target_influences_itself_witness :
  ∃ g,
    get_dependencies_influences 2 chain_ast = Some g
    ∧ (∀ x, (x ∉ dd_get (g_influences g) x)
            ∧ x ∉ dd_get (g_indirect_influences g) x)
    ∧ ∀ o y z,
        y ∈ dd_get (g_influences g) o ∪ dd_get (g_indirect_influences g) o →
        z ∈ dd_get (g_influences g) y ∪ dd_get (g_indirect_influences g) y →
        z ∈ dd_get (g_indirect_influences g) o.
Proof.
  eexists. split; [by vm_compute|].
  apply (no_target_influences_itself 2 chain_ast). by vm_compute.
Defined.

(** ** The graph and the order of the rules *)

Lemma dd_map_eq (m1 m2 : gmap string (gset string)) :
  (∀ k, is_Some (m1 !! k) ↔ is_Some (m2 !! k)) →
  (∀ k, dd_get m1 k = dd_get m2 k) →
  m1 = m2.
Proof.
  intros Hkeys Hsets. apply map_eq. intros k.
  specialize (Hkeys k). specialize (Hsets k). unfold dd_get in Hsets.
  destruct (m1 !! k) as [s1|], (m2 !! k) as [s2|]; simpl in *.
  - by subst.
  - destruct Hkeys as [[? [=]] _]. by eexists.
  - destruct Hkeys as [_ [? [=]]]. by eexists.
  - done.
Qed.

Lemma graphed_Permutation ast ast' d :
  ast ≡ₚ ast' → graphed ast d ↔ graphed ast' d.
Proof. intros Hperm. unfold graphed. by rewrite Hperm. Qed.

(** X21. The order of the rules does not matter to the graph:
    [influences] and [order_only] are the same for two ASTs with the same
    elements in another order, and when no name is defined twice the
    graph builder gives the same four results, or fails, on both. *)
Theorem graph_ignores_order (limit : nat) (ast ast' : list ast_item) :
  ast ≡ₚ ast' →
  influences (direct_pass ast) = influences (direct_pass ast')
  ∧ order_only (direct_pass ast) = order_only (direct_pass ast')
  ∧ (NoDup (target_names ast) →
     get_dependencies_influences limit ast
     = get_dependencies_influences limit ast').
Proof.
  intros Hperm.
  assert (influences (direct_pass ast) = influences (direct_pass ast'))
    as Hinfl.
  { apply dd_map_eq.
    - intros k. rewrite !direct_pass_keys.
      by setoid_rewrite (graphed_Permutation ast ast' _ Hperm).
    - intros k. apply set_eq. intros t. rewrite !direct_pass_influences.
      by setoid_rewrite (graphed_Permutation ast ast' _ Hperm). }
  assert (order_only (direct_pass ast) = order_only (direct_pass ast'))
    as Horder.
  { apply set_eq. intros k. rewrite !direct_pass_order_only.
    by setoid_rewrite (graphed_Permutation ast ast' _ Hperm). }
  split; [done|]. split; [done|]. intros Hnodup.
  assert (NoDup (target_names ast')) as Hnodup'.
  { unfold target_names. by rewrite <- Hperm. }
  assert (dependencies (direct_pass ast) = dependencies (direct_pass ast'))
    as Hdeps.
  { apply map_eq. intros k. apply option_eq. intros v.
    rewrite !direct_pass_lookup_once by done.
    by setoid_rewrite (graphed_Permutation ast ast' _ Hperm). }
  unfold get_dependencies_influences. by rewrite Hinfl, Horder, Hdeps.
Qed.

Lemma graph_ignores_order_witness :
  influences (direct_pass chain_ast)
  = influences (direct_pass (reverse chain_ast))
  ∧ order_only (direct_pass chain_ast)
    = order_only (direct_pass (reverse chain_ast))
  ∧ (NoDup (target_names chain_ast) →
     get_dependencies_influences 2 chain_ast
     = get_dependencies_influences 2 (reverse chain_ast)).
Proof.
  apply (graph_ignores_order 2 chain_ast (reverse chain_ast)).
  symmetry. apply reverse_Permutation.
Defined.

(** X22. When the influence graph has no cycle, the calls of
    [recurse_indirect_influences] nest no deeper than the number of keys
    of [influences] plus one: the graph builder returns as soon as the
    number [limit] of nested calls that the closure may make is above the
    number of keys. *)
Theorem recursion_depth_bound (limit : nat) (ast : list ast_item) :
  acyclic (influences (direct_pass ast)) →
  (size (influences (direct_pass ast)) < limit)%nat →
  is_Some (get_dependencies_influences limit ast).
Proof.
  intros [ind Hind]%indirect_pass_terminates Hlimit.
  eexists. apply get_dependencies_influences_Some. eexists. split; [|done].
  eapply indirect_pass_mono; [|exact Hind]. lia.
Qed.

Lemma recursion_depth_bound_witness :
  is_Some (get_dependencies_influences 4 chain_ast).
Proof.
  apply (recursion_depth_bound 4 chain_ast).
  - intros x Hx. pose proof (indirect_pass_cycle _ 2 x Hx) as H.
    by vm_compute in H.
  - vm_compute. lia.
Defined.

(** ** The include instruction *)

Lemma star_greedy_is_Some {R : Type} p (k : string → option R) s :
  (∀ s, is_Some (k s)) → is_Some (star_greedy p k s).
Proof.
  intros Hk. induction s as [|c s IH]; simpl; [done|].
  destruct (p c); [|done]. by destruct IH as [r ->].
Qed.

Lemma is_include_prefix s :
  is_include s = true ↔ ∃ rest, s = "include " ++ rest.
Proof.
  unfold is_include, re_match, include_re.
  cbn [list_ascii_of_string fmap list_fmap foldr rmatch]. split.
  - intros H.
    do 7 (destruct s as [|? s]; [done|];
          match type of H with
          | context [is_char ?a ?b] =>
              destruct (is_char a b) eqn:?Hc; [|done];
              apply Ascii.eqb_eq in Hc as <-
          end).
    destruct s as [|c s]; [done|]. unfold plus_greedy in H.
    destruct (is_char " " c) eqn:Hc; [|done].
    apply Ascii.eqb_eq in Hc as <-. by eexists.
  - intros [rest ->]. simpl.
    match goal with
    | |- context [star_greedy ?p ?k ?s] =>
        destruct (star_greedy_is_Some p k s) as [r ->]; [by eexists|done]
    end.
Qed.

Lemma prefix_app s1 s2 :
  String.prefix s1 s2 = true ↔ ∃ r, s2 = s1 ++ r.
Proof.
  revert s2. induction s1 as [|a s1 IH]; intros s2; simpl.
  - split; [by exists s2|by destruct s2].
  - destruct s2 as [|b s2]; simpl; [split; [done|by intros [? ?]]|].
    destruct (ascii_dec a b) as [->|Hab].
    + rewrite IH. split; intros [r Hr]; exists r; congruence.
    + split; [done|]. intros [r [= ? ?]]. done.
Qed.

Lemma not_in_space c : not_in " " c = true ↔ c ≠ " "%char.
Proof.
  unfold not_in. simpl. rewrite orb_false_r, negb_true_iff.
  apply Ascii.eqb_neq.
Qed.

(** *** [re.sub] on an include line *)

Lemma sub_spaces_go_word b w s :
  w ≠ "" → all_chars (not_in " ") w = true →
  sub_spaces_go b (w ++ s) = w ++ sub_spaces_go false s.
Proof.
  intros Hne Hw. revert b Hne.
  induction w as [|c w IH]; intros b Hne; [done|]. simpl in *.
  apply andb_true_iff in Hw as [Hc%not_in_space%Ascii.eqb_neq Hw].
  rewrite Hc. f_equal. destruct w as [|d w]; [done|]. by apply IH.
Qed.

Lemma sub_spaces_go_spaces n s :
  sub_spaces_go true (spaces n ++ s) = sub_spaces_go true s.
Proof. induction n as [|n IH]; simpl; [done|]. apply IH. Qed.

(** *** [str.split] with a separator *)

Lemma split_on_go_cons sep skip cur s :
  ∃ y ys, split_on_go sep skip cur s = y :: ys.
Proof.
  revert skip cur. induction s as [|c s IH]; intros skip cur;
    cbn [split_on_go].
  - by eexists _, _.
  - destruct skip; [|apply IH].
    destruct (String.prefix sep (String c s)); [by eexists _, _|apply IH].
Qed.

Lemma split_on_go_none sep cur s :
  occurs sep s = false → split_on_go sep 0 cur s = [cur ++ s].
Proof.
  revert cur. induction s as [|c s IH]; intros cur; cbn [split_on_go occurs].
  - intros _. by rewrite string_app_nil_r.
  - intros [Hp Hs]%orb_false_iff.
    rewrite Hp, IH by done. by rewrite string_app_assoc.
Qed.

Lemma split_on_go_char c cur w s :
  all_chars (not_in (String c "")) w = true →
  split_on_go (String c "") 0 cur (w ++ s)
  = split_on_go (String c "") 0 (cur ++ w) s.
Proof.
  revert cur. induction w as [|d w IH]; intros cur; simpl.
  - by rewrite string_app_nil_r.
  - intros [Hd Hw]%andb_true_iff.
    unfold not_in in Hd. simpl in Hd.
    rewrite orb_false_r, negb_true_iff in Hd. apply Ascii.eqb_neq in Hd.
    destruct (ascii_dec c d) as [->|_]; [done|].
    rewrite IH by done. by rewrite string_app_assoc.
Qed.

Lemma split_on_go_sep c cur s :
  split_on_go (String c "") 0 cur (String c s)
  = cur :: split_on_go (String c "") 0 "" s.
Proof. simpl. destruct (ascii_dec c c); [by destruct s|done]. Qed.

(** [sep.join(l).split(sep)] gives [l] back. *)
Lemma split_on_join c ls :
  ls ≠ [] → Forall (λ l, all_chars (not_in (String c "")) l = true) ls →
  split_on (String c "") (join (String c "") ls) = ls.
Proof.
  unfold split_on. induction ls as [|l ls IH]; [done|]. intros _ Hls.
  apply Forall_cons in Hls as [Hl Hls].
  destruct ls as [|l' ls].
  - change (join (String c "") [l]) with l.
    rewrite <- (string_app_nil_r l) at 1. by rewrite split_on_go_char.
  - change (join (String c "") (l :: l' :: ls))
      with (l ++ String c (join (String c "") (l' :: ls))).
    rewrite split_on_go_char, split_on_go_sep by done. simpl.
    f_equal. by apply IH.
Qed.

(** *** The names of an include line *)

Lemma app_space_inj w1 w2 r1 r2 :
  all_chars (not_in " ") w1 = true → all_chars (not_in " ") w2 = true →
  w1 ++ String " " r1 = w2 ++ String " " r2 → w1 = w2 ∧ r1 = r2.
Proof.
  revert w2. induction w1 as [|c w1 IH]; intros [|d w2]; simpl.
  - by intros _ _ [= ->].
  - intros _ [Hd%not_in_space _]%andb_true_iff [= <- _]. done.
  - intros [Hc%not_in_space _]%andb_true_iff _ [= -> _]. done.
  - intros [_ H1]%andb_true_iff [_ H2]%andb_true_iff [= -> Heq].
    destruct (IH _ H1 H2 Heq) as [-> ->]. done.
Qed.

Lemma occurs_include_word w :
  all_chars (not_in " ") w = true → occurs "include " w = false.
Proof.
  induction w as [|c w IH]; [done|]. intros Hw.
  cbn [occurs]. apply orb_false_iff. split.
  - apply not_true_iff_false. intros [r Hr]%prefix_app.
    rewrite Hr in Hw. by vm_compute in Hw.
  - apply IH. simpl in Hw. by apply andb_true_iff in Hw as [_ ?].
Qed.

Lemma occurs_include_space w rest :
  all_chars (not_in " ") w = true →
  occurs "include " (w ++ String " " rest) = true →
  ends_with "include" w = true ∨ occurs "include " rest = true.
Proof.
  induction w as [|c w IH]; intros Hw.
  - change ("" ++ String " " rest) with (String " " rest).
    cbn [occurs]. intros [[r [=]]%prefix_app|Hs]%orb_true_iff. by right.
  - change (String c w ++ String " " rest)
      with (String c (w ++ String " " rest)).
    cbn [occurs]. intros [Hp|Hs]%orb_true_iff.
    + left. apply prefix_app in Hp as [r Hr].
      change (String c (w ++ String " " rest))
        with (String c w ++ String " " rest) in Hr.
      change ("include " ++ r) with ("include" ++ String " " r) in Hr.
      apply app_space_inj in Hr as [-> _]; [done|done|done].
    + simpl in Hw. apply andb_true_iff in Hw as [_ Hw].
      destruct (IH Hw Hs) as [Hend|?]; [left|by right].
      cbn [ends_with]. rewrite Hend. apply orb_true_r.
Qed.

Lemma split_on_include rest :
  split_on "include " ("include " ++ rest)
  = "" :: split_on_go "include " 0 "" rest.
Proof. unfold split_on. simpl. by destruct rest. Qed.

Lemma join_app sep (l1 l2 : list string) :
  l1 ≠ [] → l2 ≠ [] →
  join sep (l1 ++ l2) = join sep l1 ++ sep ++ join sep l2.
Proof.
  induction l1 as [|x l1 IH]; [done|]. intros _ Hl2.
  destruct l1 as [|y l1].
  - destruct l2; [done|]. done.
  - change (join sep ((x :: y :: l1) ++ l2))
      with (x ++ sep ++ join sep ((y :: l1) ++ l2)).
    rewrite IH by done.
    change (join sep (x :: y :: l1)) with (x ++ sep ++ join sep (y :: l1)).
    by rewrite !string_app_assoc.
Qed.

Lemma join_join sep (wss : list (list string)) :
  Forall (λ ws, ws ≠ []) wss →
  join sep (join sep <$> wss) = join sep (concat wss).
Proof.
  induction wss as [|ws wss IH]; [done|]. intros Hwss.
  apply Forall_cons in Hwss as [Hws Hwss].
  destruct wss as [|ws' wss].
  - simpl. by rewrite app_nil_r.
  - change (join sep (join sep <$> ws :: ws' :: wss))
      with (join sep ws ++ sep ++ join sep (join sep <$> ws' :: wss)).
    rewrite IH by done. cbn [concat].
    rewrite (join_app sep ws (ws' ++ concat wss)); [done|done|].
    apply Forall_cons in Hwss as [Hws' _]. by destruct ws'.
Qed.

Lemma snd_concat {A B : Type} (rows : list (list (A * B))) :
  (concat rows).*2 = concat ((λ row, row.*2) <$> rows).
Proof.
  induction rows as [|row rows IH]; [done|].
  cbn [concat fmap list_fmap]. rewrite fmap_app. by f_equal.
Qed.

(** *** Spaces at the end of an include line *)

Lemma sub_spaces_go_spaces_end t : sub_spaces_go true (spaces t) = "".
Proof. induction t as [|t IH]; [done|]. apply IH. Qed.

Lemma sub_spaces_go_spaces_S n s :
  sub_spaces_go false (spaces (S n) ++ s) = String " " (sub_spaces_go true s).
Proof. simpl. by rewrite sub_spaces_go_spaces. Qed.

Lemma sub_spaces_go_spaced_then row t :
  row ≠ [] → Forall include_name row.*2 →
  sub_spaces_go false (spaced row ++ spaces t)
  = String " " (join " " (words_then (row, t))).
Proof.
  induction row as [|[n w] row IH]; [done|]. intros _ Hrow.
  apply Forall_cons in Hrow as [(Hne & Hw & _) Hrow].
  cbn [spaced]. rewrite !string_app_assoc, sub_spaces_go_spaces_S.
  rewrite sub_spaces_go_word by done. f_equal.
  destruct row as [|[n' w'] row].
  - cbn [spaced]. change ("" ++ spaces t) with (spaces t).
    destruct t as [|t].
    + apply string_app_nil_r.
    + rewrite <- (string_app_nil_r (spaces (S t))), sub_spaces_go_spaces_S.
      done.
  - by rewrite IH.
Qed.

Lemma sub_spaces_include_line_then row t :
  row ≠ [] → Forall include_name row.*2 →
  sub_spaces (include_line_then (row, t))
  = "include " ++ join " " (words_then (row, t)).
Proof.
  intros Hne Hrow. unfold sub_spaces, include_line_then, include_line.
  simpl. by rewrite sub_spaces_go_spaced_then.
Qed.

Lemma occurs_include_words ws :
  Forall (λ w, all_chars (not_in " ") w = true
               ∧ ends_with "include" w = false) ws →
  occurs "include " (join " " ws) = false.
Proof.
  induction ws as [|w ws IH]; [done|]. intros Hws.
  apply Forall_cons in Hws as [[Hw Hend] Hws].
  destruct ws as [|w' ws].
  - by apply occurs_include_word.
  - change (join " " (w :: w' :: ws))
      with (w ++ String " " (join " " (w' :: ws))).
    apply not_true_iff_false.
    intros [?|Hocc]%occurs_include_space; [congruence| |done].
    by rewrite IH in Hocc.
Qed.

Lemma words_then_words row t :
  Forall include_name row.*2 →
  Forall (λ w, all_chars (not_in " ") w = true
               ∧ ends_with "include" w = false) (words_then (row, t)).
Proof.
  intros Hrow. unfold words_then. apply Forall_app. split.
  - apply (Forall_impl _ _ _ Hrow). by intros w (_ & ? & ?).
  - destruct t; by repeat constructor.
Qed.

Lemma after_include_lines_then rows :
  Forall (λ line, line.1 ≠ [] ∧ Forall include_name line.1.*2) rows →
  after_include (sub_spaces <$> (include_line_then <$> rows))
  = inr ((λ line, join " " (words_then line)) <$> rows).
Proof.
  induction rows as [|[row t] rows IH]; [done|]. intros Hrows.
  apply Forall_cons in Hrows as [[Hne Hrow] Hrows]. simpl in Hne, Hrow.
  cbn [fmap list_fmap after_include].
  rewrite sub_spaces_include_line_then, split_on_include by done.
  rewrite split_on_go_none
    by by apply occurs_include_words, words_then_words.
  change (list_fmap _ _ sub_spaces (list_fmap _ _ include_line_then rows))
    with (sub_spaces <$> (include_line_then <$> rows)).
  by rewrite IH.
Qed.

Lemma makes_include_lines_then rows :
  rows ≠ [] →
  Forall (λ line, line.1 ≠ [] ∧ Forall include_name line.1.*2) rows →
  makes (sub_spaces <$> (include_line_then <$> rows))
  = inr (concat (words_then <$> rows)).
Proof.
  intros Hne Hrows. unfold makes. rewrite after_include_lines_then by done.
  f_equal.
  rewrite (list_fmap_compose words_then (join " ") rows :
             (λ line, join " " (words_then line)) <$> rows = _).
  rewrite join_join.
  - apply split_on_join.
    + destruct rows as [|[row t] rows]; [done|].
      apply Forall_cons in Hrows as [[Hrow _] _]. simpl in Hrow.
      by destruct row.
    + apply Forall_concat, Forall_fmap.
      apply (Forall_impl _ _ _ Hrows). intros [row t] [_ Hrow]. simpl.
      apply (Forall_impl _ _ _ (words_then_words row t Hrow)).
      by intros w [? _].
  - apply Forall_fmap. apply (Forall_impl _ _ _ Hrows).
    intros [row t] [Hrow _]. simpl in *. unfold words_then. simpl.
    by destruct row.
Qed.

Lemma makes_include_lines rows :
  rows ≠ [] →
  Forall (λ row, row ≠ [] ∧ Forall include_name row.*2) rows →
  makes (sub_spaces <$> (include_line <$> rows)) = inr (concat rows).*2.
Proof.
  intros Hne Hrows.
  assert (include_line <$> rows
          = include_line_then <$> ((λ row, (row, O)) <$> rows)) as ->.
  { rewrite <- list_fmap_compose. apply list_fmap_ext. intros _ row _.
    unfold include_line_then. simpl. by rewrite string_app_nil_r. }
  rewrite makes_include_lines_then.
  - f_equal. rewrite snd_concat, <- list_fmap_compose. f_equal.
    apply list_fmap_ext. intros _ row _.
    unfold words_then. simpl. by rewrite app_nil_r.
  - by destruct rows.
  - apply Forall_fmap. by apply (Forall_impl _ _ _ Hrows).
Qed.

(** *** The lines of a text *)

Lemma splitlines_go_lines n s cur :
  (String.length s ≤ n)%nat →
  (∀ l, cur = Some l → no_linebreak l) →
  Forall no_linebreak (splitlines_go cur s).
Proof.
  revert s cur. induction n as [|n IH]; intros s cur Hn Hcur.
  { destruct s; [|simpl in Hn; lia]. simpl.
    destruct cur; simpl; [|done]. apply Forall_singleton. by apply Hcur. }
  destruct s as [|c s]; simpl.
  { destruct cur; simpl; [|done]. apply Forall_singleton. by apply Hcur. }
  simpl in Hn. destruct (is_linebreak c) eqn:Hc.
  - apply Forall_cons. split.
    { destruct cur; simpl; [by apply Hcur|done]. }
    destruct s as [|d s]; [done|].
    destruct (Ascii.eqb c CR && Ascii.eqb d LF).
    + apply IH; [simpl in Hn; lia|done].
    + apply IH; [lia|done].
  - apply IH; [lia|]. intros l [= <-]. unfold no_linebreak.
    rewrite all_chars_app. simpl. rewrite Hc. simpl.
    destruct cur; simpl; [|done]. rewrite andb_true_r. by apply Hcur.
Qed.

Lemma splitlines_lines s : Forall no_linebreak (splitlines s).
Proof. by apply (splitlines_go_lines (String.length s)). Qed.

Lemma no_linebreak_LF l :
  no_linebreak l → all_chars (not_in (String LF "")) l = true.
Proof.
  unfold no_linebreak. induction l as [|c l IH]; simpl; [done|].
  intros [Hc Hl]%andb_true_iff. rewrite IH, andb_true_r by done.
  unfold not_in. simpl. rewrite orb_false_r.
  destruct (Ascii.eqb c LF) eqn:Heq; [|done].
  apply Ascii.eqb_eq in Heq as ->. by vm_compute in Hc.
Qed.

(** *** The loop over the included makefiles *)

Lemma read_makes_inr fs lines names r :
  read_makes fs lines names = inr r
  ↔ ∃ texts,
      Forall2 (λ i text, fs !! i = Some text) names texts
      ∧ r = (lines ++ concat (splitlines <$> texts))%list.
Proof.
  revert lines. induction names as [|i names IH]; intros lines; simpl.
  - split.
    + intros [= <-]. exists []. by rewrite app_nil_r.
    + intros (texts & ->%Forall2_nil_inv_l & ->). by rewrite app_nil_r.
  - destruct (fs !! i) as [text|] eqn:Hi.
    + rewrite IH. split.
      * intros (texts & Htexts & ->). exists (text :: texts).
        split; [by constructor|]. simpl. by rewrite app_assoc.
      * intros (texts & (text' & texts' & Hi' & Htexts & ->)%Forall2_cons_inv_l
                  & ->).
        exists texts'. split; [done|].
        assert (text' = text) as -> by congruence.
        simpl. by rewrite app_assoc.
    + split; [done|].
      intros (texts & (text' & texts' & Hi' & _)%Forall2_cons_inv_l & _).
      congruence.
Qed.

Lemma read_makes_inl fs lines names e :
  read_makes fs lines names = inl e →
  ∃ i, i ∈ names ∧ fs !! i = None ∧ e = OSError i.
Proof.
  revert lines. induction names as [|i names IH]; intros lines; simpl; [done|].
  destruct (fs !! i) as [text|] eqn:Hi.
  - intros (j & Hj & ?)%IH. exists j. split; [by right|done].
  - intros [= <-]. exists i. split; [by left|done].
Qed.

Lemma after_include_is_inr matches :
  Forall (λ x, ∃ rest, x = "include " ++ rest) matches →
  ∃ names, after_include matches = inr names.
Proof.
  induction matches as [|x matches IH]; [by eexists|]. intros Hm.
  apply Forall_cons in Hm as [[rest ->] Hm].
  destruct (IH Hm) as [names Hnames].
  cbn [after_include]. rewrite split_on_include.
  destruct (split_on_go_cons "include " 0 "" rest) as (y & ys & ->).
  rewrite Hnames. by eexists.
Qed.

Lemma sub_spaces_include rest :
  ∃ rest', sub_spaces ("include " ++ rest) = "include " ++ rest'.
Proof. by eexists. Qed.

Lemma filter_is_include lines :
  Forall (λ x, ∃ rest, x = "include " ++ rest)
    (sub_spaces <$> List.filter is_include lines).
Proof.
  apply Forall_fmap, Forall_forall. intros l Hl.
  apply list_elem_of_In, filter_In in Hl as [_ [rest ->]%is_include_prefix].
  apply sub_spaces_include.
Qed.

(** X23. The paths that [check_include_instruction] opens are the names
    of the include lines, in the order of the lines: when each include
    line is [include] followed by one or more names, each after one or
    more spaces, with nothing after the last name, [makes] is the list of
    all the names. A name here is not empty, has no space, and does not
    end with the word [include]. *)
Theorem makes_of_include_lines (rows : list (list (nat * string))) :
  rows ≠ [] →
  Forall (λ row, row ≠ [] ∧ Forall include_name row.*2) rows →
  makes (sub_spaces <$> (include_line <$> rows)) = inr (concat rows).*2.
Proof. apply makes_include_lines. Qed.

Lemma makes_of_include_lines_witness :
  makes (sub_spaces <$> ["include   a.mk  b.mk"; "include c.mk"])
  = inr ["a.mk"; "b.mk"; "c.mk"].
Proof.
  apply (makes_of_include_lines [[(2, "a.mk"); (1, "b.mk")]; [(0, "c.mk")]]).
  - done.
  - repeat constructor; done.
Defined.

(** X24. A makefile with include lines becomes one temporary file: the
    lines of the makefile followed by the lines of the included files, in
    the order of their names, without the lines that start with
    [include] and a space, joined by newlines. The include lines of an
    included file are dropped with the others: the files that they name
    are not read. *)
Theorem include_lines_are_expanded (fs : gmap string string)
    (filename text : string) (rows : list (list (nat * string)))
    (texts : list string) :
  fs !! filename = Some text →
  List.filter is_include (splitlines text) = include_line <$> rows →
  rows ≠ [] →
  Forall (λ row, row ≠ [] ∧ Forall include_name row.*2) rows →
  Forall2 (λ i t, fs !! i = Some t) (concat rows).*2 texts →
  check_include_instruction fs filename =
  inr (temporary
         (join (String LF "")
            (List.filter (λ s, negb (is_include s))
               (splitlines text ++ concat (splitlines <$> texts))))).
Proof.
  intros Hfile Hlines Hne Hrows Htexts.
  unfold check_include_instruction. rewrite Hfile. cbn zeta.
  rewrite Hlines, makes_include_lines by done.
  rewrite !length_fmap. destruct rows as [|row rows]; [done|].
  cbn [List.length Nat.eqb].
  destruct (read_makes fs (splitlines text) (concat (row :: rows)).*2)
    as [e|lines'] eqn:Hread.
  - apply read_makes_inl in Hread as (i & Hi & Hnone & _).
    apply list_elem_of_lookup in Hi as [n Hn].
    destruct (Forall2_lookup_l _ _ _ _ _ Htexts Hn) as (t & _ & Ht).
    congruence.
  - apply read_makes_inr in Hread as (texts' & Htexts' & ->).
    assert (texts' = texts) as ->; [|done].
    clear -Htexts Htexts'. revert texts' Htexts'.
    induction Htexts as [|i t names ts Hi _ IH]; intros texts' Htexts'.
    + by apply Forall2_nil_inv_l in Htexts'.
    + apply Forall2_cons_inv_l in Htexts' as (t' & ts' & Hi' & Hts' & ->).
      f_equal; [congruence|by apply IH].
Qed.

Lemma include_lines_are_expanded_witness :
  check_include_instruction include_fs "Makefile" =
  inr (temporary
         (join (String LF "")
            (List.filter (λ s, negb (is_include s))
               (splitlines
                  ("all: a" ++ String LF
                     ("include   a.mk  b.mk" ++ String LF
                        ("x: y" ++ String LF "")))
                ++ concat
                     (splitlines <$>
                        ["a: b" ++ String LF ("include c.mk" ++ String LF "");
                         "b:" ++ String LF ""]))))).
Proof.
  apply (include_lines_are_expanded include_fs "Makefile" _
           [[(2, "a.mk"); (1, "b.mk")]]).
  - by vm_compute.
  - by vm_compute.
  - done.
  - repeat constructor; done.
  - repeat constructor.
Defined.

(** X25. Computing [makes] never raises, whatever the lines of the
    makefile are: a line that matches [include +] still starts with
    [include] and a space once its runs of spaces are single spaces, so
    that [x.split('include ')] has at least two elements and the index
    [1] is in range. *)
Theorem makes_never_raises (lines : list string) :
  ∃ names, makes (sub_spaces <$> List.filter is_include lines) = inr names.
Proof.
  unfold makes.
  destruct (after_include_is_inr _ (filter_is_include lines))
    as [names ->].
  by eexists.
Qed.

(** X26. The temporary file has no include line: split at its newlines,
    its text has no line that starts with [include] and a space. *)
Theorem temporary_has_no_include_line (fs : gmap string string)
    (filename text' : string) :
  check_include_instruction fs filename = inr (temporary text') →
  Forall (λ l, is_include l = false) (split_on (String LF "") text').
Proof.
  unfold check_include_instruction.
  destruct (fs !! filename) as [text|]; [|done]. cbn zeta.
  destruct (Nat.eqb _ _); [done|].
  destruct (makes _) as [e|names]; [done|].
  destruct (read_makes _ _ _) as [e|lines'] eqn:Hread; [done|].
  intros [= <-].
  apply read_makes_inr in Hread as (texts & _ & ->).
  set (lines := (splitlines text ++ concat (splitlines <$> texts))%list).
  assert (Forall no_linebreak lines) as Hlines.
  { apply Forall_app. split; [apply splitlines_lines|].
    apply Forall_concat, Forall_fmap, Forall_forall.
    intros t _. apply splitlines_lines. }
  destruct (List.filter (λ s, negb (is_include s)) lines) as [|l ls] eqn:Hf.
  { by repeat constructor. }
  rewrite split_on_join; [|done|].
  - rewrite <- Hf. apply Forall_forall. intros x Hx.
    apply list_elem_of_In, filter_In in Hx as [_ Hx].
    by apply negb_true_iff.
  - rewrite <- Hf. apply Forall_forall. intros x Hx.
    apply list_elem_of_In, filter_In in Hx as [Hx%list_elem_of_In _].
    apply no_linebreak_LF. rewrite Forall_forall in Hlines. by apply Hlines.
Qed.

Lemma temporary_has_no_include_line_witness :
  ∃ text',
    check_include_instruction include_fs "Makefile" = inr (temporary text')
    ∧ Forall (λ l, is_include l = false) (split_on (String LF "") text').
Proof.
  eexists. split; [by vm_compute|].
  apply (temporary_has_no_include_line include_fs "Makefile").
  by vm_compute.
Defined.




(** ** The names of the targets *)

Lemma glue_loop_head lines strip_line it v it' :
  glue_loop lines strip_line it = inr (v, it') →
  ∃ more,
    v = join " "
          (lines ++ strip (rstrip_chars (String BACKSLASH "") strip_line)
                 :: more)%list.
Proof.
  revert lines strip_line.
  induction it as [|line it IH]; intros lines strip_line; simpl;
    destruct (last_char strip_line) as [c|]; try discriminate;
    destruct (Ascii.eqb c BACKSLASH); try discriminate.
  - intros [= <- _]. by exists [].
  - intros (more & ->)%IH. rewrite <- app_assoc. simpl. by eexists.
  - intros [= <- _]. by exists [].
Qed.

Lemma first_char_join p more c :
  first_char p = Some c → first_char (join " " (p :: more)) = Some c.
Proof.
  destruct p as [|d p]; [done|]. intros [= ->]. by destruct more.
Qed.

Lemma contains_lstrip_by p c s :
  p c = false → contains c s = true → contains c (lstrip_by p s) = true.
Proof.
  unfold contains. intros Hc. induction s as [|d s IH]; simpl; [done|].
  destruct (p d) eqn:Hd; [|done].
  destruct (Ascii.eqb c d) eqn:Heq; [|done].
  apply Ascii.eqb_eq in Heq as ->. congruence.
Qed.

Lemma contains_rstrip_by p c s :
  p c = false → contains c s = true → contains c (rstrip_by p s) = true.
Proof.
  unfold contains. intros Hc. induction s as [|d s IH]; simpl; [done|].
  destruct (Ascii.eqb c d) eqn:Heq; simpl.
  - apply Ascii.eqb_eq in Heq as <-. intros _.
    destruct (rstrip_by p s); simpl; rewrite ?Hc; simpl;
      by rewrite Ascii.eqb_refl.
  - intros Hs%IH. destruct (rstrip_by p s); [done|]. simpl in *.
    by rewrite Heq.
Qed.

Lemma first_char_strip s c :
  first_char (strip s) = Some c → isspace c = false.
Proof.
  unfold strip. destruct (rstrip_by isspace _) as [|d r] eqn:Hr; [done|].
  intros [= ->]. apply rstrip_by_head in Hr. by eapply lstrip_by_first.
Qed.

Lemma piece_of_rule line :
  contains ":" line = true →
  ∃ c, first_char (piece line) = Some c ∧ isspace c = false.
Proof.
  intros Hline. unfold piece.
  assert (contains ":"
            (strip (rstrip_chars (String BACKSLASH "") (strip line))) = true)
    as Hpiece.
  { unfold strip, rstrip_chars.
    repeat (apply contains_rstrip_by || apply contains_lstrip_by); done. }
  destruct (strip (rstrip_chars _ _)) as [|c r] eqn:Hp; [done|].
  exists c. split; [done|].
  apply (first_char_strip
           (rstrip_chars (String BACKSLASH "") (strip line)) c).
  by rewrite Hp.
Qed.

Lemma target_token_text fd :
  Forall starts_with_text (yielded (tokenizer fd)).
Proof.
  remember (List.length fd) as n eqn:Hn. revert fd Hn.
  induction n as [n IH] using lt_wf_ind. intros [|line it] ->.
  { simp tokenizer. constructor. }
  assert (Forall starts_with_text (yielded (tokenizer it))) as Hit.
  { apply (IH (List.length it)); [simpl; lia|done]. }
  assert (∀ kind,
            (kind = Tokens.target → contains ":" line = true) →
            Forall starts_with_text (yielded (spliced kind line it)))
    as Hspliced.
  { intros kind Hkind. unfold spliced, glue_multiline.
    destruct (glue_loop [] (strip line) it) as [e|[v it']] eqn:Hglue;
      [constructor|].
    simpl. apply Forall_cons. split.
    - intros Htarget%Hkind. simpl.
      apply glue_loop_head in Hglue as (more & ->). simpl app.
      destruct (piece_of_rule line Htarget) as (c & Hc & Hspace).
      exists c. split; [|done]. by apply first_char_join.
    - apply (IH (List.length it')); [|done].
      apply glue_loop_consumes in Hglue. simpl. lia. }
  rewrite tokenizer_cons.
  destruct (is_blank line); [done|].
  destruct (is_comment line); [done|].
  destruct (starts_with_tab line); [by apply Hspliced|].
  destruct (is_rule line) eqn:Hrule.
  - apply Hspliced. intros _. unfold is_rule in Hrule.
    by apply andb_true_iff in Hrule as [? _].
  - simpl. apply Forall_cons. split; [|done]. by intros [=].
Qed.

Lemma strip_of_text c s :
  isspace c = false →
  ∃ r, strip (String c s) = String c r.
Proof.
  intros Hc. unfold strip. simpl. rewrite Hc. simpl.
  destruct (rstrip_by isspace s); [|by eexists].
  rewrite Hc. by eexists.
Qed.

Lemma parse_loop_named it ast ast' :
  Forall starts_with_text (yielded it) → Forall named ast →
  parse_loop it ast = inr ast' → Forall named ast'.
Proof.
  revert ast'.
  apply (parse_rounds (λ it ast res,
    ∀ ast', Forall starts_with_text (yielded it) → Forall named ast →
            res = inr ast' → Forall named ast')).
  - by intros ast0 ast' _ Hast [= <-].
  - done.
  - done.
  - intros v it0 ast0 ast1 it' Htarget IH ast' Htoks Hast Hres.
    simpl in Htoks. apply Forall_cons in Htoks as [Hv Htoks].
    apply parse_target_inr in Htarget
      as (g & name & b & Hg & Hname & Hb & ->).
    apply parse_body_yielded in Hb as [Hb _]. rewrite Hb in Htoks.
    apply Forall_app in Htoks as [_ Htoks].
    apply (IH ast'); [done| |done].
    apply Forall_app. split; [done|]. apply Forall_singleton. simpl.
    destruct (Hv eq_refl) as (c & Hc & Hspace). simpl in Hc, Hg.
    apply target_re_group_1 in Hg as (name' & rest & Hname' & Htext & Hne & _).
    assert (name' = name) as -> by congruence.
    destruct name as [|c0 name]; [done|].
    rewrite Htext in Hc. injection Hc as ->.
    destruct (strip_of_text c name Hspace) as [r Hr].
    split; [by rewrite Hr|apply strip_idemp].
  - intros v it0 ast0 IH ast' Htoks Hast Hres.
    simpl in Htoks. apply Forall_cons in Htoks as [_ Htoks].
    apply (IH ast'); [done| |done].
    apply Forall_app. split; [done|]. by apply Forall_singleton.
  - intros v it0 ast0 IH ast' Htoks Hast Hres.
    simpl in Htoks. apply Forall_cons in Htoks as [_ Htoks].
    apply (IH ast'); [done| |done].
    apply Forall_app. split; [done|]. by apply Forall_singleton.
Qed.

(** X28. The name of a target is never empty: in every record of an AST
    of [parse], [target] is not the empty string and is trimmed (trimming
    it again changes nothing), so that it neither starts nor ends with
    white space. *)
Theorem target_names_are_trimmed (fd : list string)
    (ast : list ast_item) (d : target_dict) :
  parse fd = inr ast → ast_target d ∈ ast →
  d.(target) ≠ "" ∧ strip d.(target) = d.(target).
Proof.
  intros Hparse Hd.
  assert (Forall named ast) as Hall.
  { apply (parse_loop_named (tokenizer fd) []);
      [apply target_token_text|constructor|exact Hparse]. }
  rewrite Forall_forall in Hall. exact (Hall _ Hd).
Qed.

Lemma target_names_are_trimmed_witness :
  "obj/a.o" ≠ "" ∧ strip "obj/a.o" = "obj/a.o".
Proof.
  apply (target_names_are_trimmed
           ["  obj/a.o  : a.c"]
           [ast_target {| target := "obj/a.o"; deps := (["a.c"], []);
                          docs := ""; body := [] |}]
           {| target := "obj/a.o"; deps := (["a.c"], []);
              docs := ""; body := [] |}).
  - by vm_compute.
  - apply list_elem_of_here.
Defined.
